(** * rocSPARSE conversion routines: a shallow embedding

    The host-side entry points [rocsparse_nnz_impl] (dense non-zero
    counting), [rocsparse_nnz_compress_template], [rocsparse_csx2dense_impl]
    with [rocsparse_csx2dense_template], and the device kernel
    [csr2csc_permute_kernel] are written as functions over an explicit
    machine state.  The state holds host memory, device memory, the
    statuses the device runtime is going to answer, and the list of
    kernels launched so far.  A host function is a computation in a
    small state monad with early [Return], so that the text follows the
    C++ statement by statement. *)

From Stdlib Require Import ZArith List Bool Lia Permutation.
Import ListNotations.
Local Open Scope Z_scope.

(** ** Integers, enumerations and descriptors *)

(** [rocsparse_int] is a 32-bit signed integer in the default build.
    Values are carried as [Z]; [to_int] is the two's-complement wrap
    that the device performs on addition. *)
Definition INT_MAX : Z := 2 ^ 31 - 1.
Definition INT_MIN : Z := - 2 ^ 31.

Definition to_int (z : Z) : Z := (z + 2 ^ 31) mod 2 ^ 32 - 2 ^ 31.

Definition int_add (a b : Z) : Z := to_int (a + b).

(** [rocprim::plus<rocsparse_int>] folded over a sequence. *)
Definition int_sum (l : list Z) : Z := fold_left int_add l 0.

(** The exact sum of a list of integers. *)
Definition Zsum (l : list Z) : Z := fold_right Z.add 0 l.

(** An [unsigned int] expression, which wraps at 32 bits. *)
Definition to_uint (z : Z) : Z := z mod 2 ^ 32.

Inductive rocsparse_status : Type :=
| rocsparse_status_success
| rocsparse_status_invalid_handle
| rocsparse_status_not_implemented
| rocsparse_status_invalid_pointer
| rocsparse_status_invalid_size
| rocsparse_status_memory_error
| rocsparse_status_internal_error
| rocsparse_status_invalid_value
| rocsparse_status_arch_mismatch
| rocsparse_status_zero_pivot.

Definition status_eqb (a b : rocsparse_status) : bool :=
  match a, b with
  | rocsparse_status_success, rocsparse_status_success
  | rocsparse_status_invalid_handle, rocsparse_status_invalid_handle
  | rocsparse_status_not_implemented, rocsparse_status_not_implemented
  | rocsparse_status_invalid_pointer, rocsparse_status_invalid_pointer
  | rocsparse_status_invalid_size, rocsparse_status_invalid_size
  | rocsparse_status_memory_error, rocsparse_status_memory_error
  | rocsparse_status_internal_error, rocsparse_status_internal_error
  | rocsparse_status_invalid_value, rocsparse_status_invalid_value
  | rocsparse_status_arch_mismatch, rocsparse_status_arch_mismatch
  | rocsparse_status_zero_pivot, rocsparse_status_zero_pivot => true
  | _, _ => false
  end.

(** A direction is a C enumeration: the caller may pass any integer,
    which is why the entry points check it. *)
Definition rocsparse_direction : Type := Z.
Definition rocsparse_direction_row : rocsparse_direction := 0.
Definition rocsparse_direction_column : rocsparse_direction := 1.

Inductive rocsparse_pointer_mode : Type :=
| rocsparse_pointer_mode_host
| rocsparse_pointer_mode_device.

Inductive rocsparse_matrix_type : Type :=
| rocsparse_matrix_type_general
| rocsparse_matrix_type_symmetric
| rocsparse_matrix_type_hermitian
| rocsparse_matrix_type_triangular.

(** The index base, 0 or 1, as the integer the kernels subtract. *)
Definition rocsparse_index_base : Type := Z.
Definition rocsparse_index_base_zero : rocsparse_index_base := 0.
Definition rocsparse_index_base_one : rocsparse_index_base := 1.

Record _rocsparse_mat_descr : Type := mk_mat_descr {
  type : rocsparse_matrix_type;
  base : rocsparse_index_base
}.

(** The fields of the handle that the conversion routines read. *)
Record _rocsparse_handle : Type := mk_handle {
  stream : Z;
  pointer_mode : rocsparse_pointer_mode;
  wavefront_size : Z;
  buffer : Z;
  buffer_size : Z
}.

(** Pointers.  [None] is [nullptr]; [Some a] is the address [a] in the
    memory its type and the call designate.  Addresses count elements,
    so that [p + i] is the address of [p[i]]. *)
Definition pointer : Type := option Z.
Definition nullptr : pointer := None.
Definition rocsparse_handle : Type := option _rocsparse_handle.
Definition rocsparse_mat_descr : Type := option _rocsparse_mat_descr.

(** ** Element types

    The routines are templates over [float], [double] and the two
    complex types.  The embedding is generic in the element type and
    uses only the operations the code applies to it. *)
Class Scalar (T : Type) : Type := {
  real_t : Type;
  (** [std::real] *)
  std_real : T -> real_t;
  (** [<] on the real type *)
  real_lt : real_t -> real_t -> bool;
  (** [rocsparse_abs(x) > r] *)
  abs_gt : T -> real_t -> bool;
  (** [static_cast<T>(0)], which is also what zeroed bytes read as *)
  scalar_zero : T;
  (** [x != static_cast<T>(0)] *)
  is_nonzero : T -> bool
}.

(** Real and complex element types over a carrier of reals. *)
Class Real (R : Type) : Type := {
  Rzero : R;
  Rlt : R -> R -> bool;
  Rneq : R -> R -> bool;
  (** [|x| > r] *)
  Rabs_gt : R -> R -> bool;
  (** [|re + i im| > r] *)
  Rhypot_gt : R -> R -> R -> bool
}.

Record complex (R : Type) : Type := mk_complex { re : R; im : R }.
Arguments mk_complex {R} _ _.
Arguments re {R} _.
Arguments im {R} _.

#[export] Instance real_Scalar {R : Type} `{Real R} : Scalar R := {|
  real_t := R;
  std_real := fun x => x;
  real_lt := Rlt;
  abs_gt := Rabs_gt;
  scalar_zero := Rzero;
  is_nonzero := fun x => Rneq x Rzero
|}.

#[export] Instance complex_Scalar {R : Type} `{Real R} : Scalar (complex R) := {|
  real_t := R;
  std_real := fun z => re z;
  real_lt := Rlt;
  abs_gt := fun z r => Rhypot_gt (re z) (im z) r;
  scalar_zero := mk_complex Rzero Rzero;
  is_nonzero := fun z => Rneq (re z) Rzero || Rneq (im z) Rzero
|}.

(** Exact integers stand in for the reals when a routine is run on
    concrete data. *)
#[export] Instance Z_Real : Real Z := {|
  Rzero := 0;
  Rlt := Z.ltb;
  Rneq := fun a b => negb (a =? b);
  Rabs_gt := fun x r => r <? Z.abs x;
  Rhypot_gt := fun a b r => (r <? 0) || (r * r <? a * a + b * b)
|}.

(** ** The device runtime *)

Inductive hipError_t : Type :=
| hipSuccess
| hipErrorInvalidValue
| hipErrorOutOfMemory
| hipErrorInvalidDevicePointer
| hipErrorInvalidDevice
| hipErrorInvalidResourceHandle
| hipErrorLaunchOutOfResources
| hipErrorNoDevice
| hipErrorUnknown.

(** What the sources use of the runtime without defining it: the table
    behind [RETURN_IF_HIP_ERROR] and the number of temporary bytes
    [rocprim::reduce] asks for. *)
Class Runtime : Type := {
  get_rocsparse_status_for_hip_status : hipError_t -> rocsparse_status;
  rocprim_reduce_temp_storage : Z -> Z
}.

(** ** Memory *)

Definition upd {V : Type} (mem : Z -> V) (a : Z) (v : V) : Z -> V :=
  fun x => if x =? a then v else mem x.

(** [0, 1, ..., n-1] *)
Definition range (n : Z) : list Z := map Z.of_nat (seq 0 (Z.to_nat n)).

(** [lo, lo+1, ..., hi-1] *)
Definition interval (lo hi : Z) : list Z := map (fun i => lo + i) (range (hi - lo)).

Definition read_array {V : Type} (mem : Z -> V) (p : Z) (n : Z) : list V :=
  map (fun i => mem (p + i)) (range n).

Fixpoint store_from {V : Type} (mem : Z -> V) (p : Z) (vs : list V) : Z -> V :=
  match vs with
  | [] => mem
  | v :: vs' => store_from (upd mem p v) (p + 1) vs'
  end.

Definition sizeof_rocsparse_int : Z := 4.

Inductive hipMemcpyKind : Type :=
| hipMemcpyDeviceToHost
| hipMemcpyDeviceToDevice.

Section Machine.

Context {T : Type} `{Scalar T} `{Runtime}.

(** Kernels with their template arguments and their arguments. *)
Inductive kernel : Type :=
| nnz_compress_kernel (BLOCK_SIZE SEGMENTS_PER_BLOCK SEGMENT_SIZE WF_SIZE : Z)
    (m : Z) (idx_base_A : rocsparse_index_base)
    (csr_val_A csr_row_ptr_A nnz_per_row : Z) (tol : T)
| csr2dense_kernel (NROWS_PER_BLOCK WAVEFRONT_SIZE : Z)
    (idx_base : rocsparse_index_base) (m n : Z)
    (csr_val csr_row_ptr csr_col_ind dense_val ld : Z)
| csc2dense_kernel (NCOLUMNS_PER_BLOCK WAVEFRONT_SIZE : Z)
    (idx_base : rocsparse_index_base) (m n : Z)
    (csc_val csc_col_ptr csc_row_ind dense_val ld : Z).

Record launch : Type := mk_launch {
  launch_kernel : kernel;
  launch_blocks : Z;
  launch_threads : Z
}.

(** The machine state.  [hip_results] are the statuses the runtime will
    give to the coming calls whose status the code inspects (success
    once the list is used up); [hip_brk] is the address the next
    [hipMalloc] hands out.  Every address other than [nullptr] is
    taken to be backed by memory. *)
Record world : Type := mk_world {
  host_int : Z -> Z;
  dev_int : Z -> Z;
  dev_val : Z -> T;
  hip_results : list hipError_t;
  hip_brk : Z;
  launched : list launch
}.

Definition set_host_int (f : Z -> Z) (w : world) : world :=
  mk_world f (dev_int w) (dev_val w) (hip_results w) (hip_brk w) (launched w).
Definition set_dev_int (f : Z -> Z) (w : world) : world :=
  mk_world (host_int w) f (dev_val w) (hip_results w) (hip_brk w) (launched w).
Definition set_dev_val (f : Z -> T) (w : world) : world :=
  mk_world (host_int w) (dev_int w) f (hip_results w) (hip_brk w) (launched w).
Definition set_hip_results (l : list hipError_t) (w : world) : world :=
  mk_world (host_int w) (dev_int w) (dev_val w) l (hip_brk w) (launched w).
Definition set_hip_brk (b : Z) (w : world) : world :=
  mk_world (host_int w) (dev_int w) (dev_val w) (hip_results w) b (launched w).
Definition add_launch (l : launch) (w : world) : world :=
  mk_world (host_int w) (dev_int w) (dev_val w) (hip_results w) (hip_brk w)
           (launched w ++ [l]).

(** ** Host computations: state, early return, undefined behaviour

    A computation ends with a value ([inl]), with a [return] of the
    enclosing function ([inr]), or has no defined behaviour ([None]). *)
Definition M (A : Type) : Type := world -> option ((A + rocsparse_status) * world).

Definition pure {A : Type} (a : A) : M A := fun w => Some (inl a, w).

(** [return s;] *)
Definition Return {A : Type} (s : rocsparse_status) : M A := fun w => Some (inr s, w).

Definition undefined {A : Type} : M A := fun _ => None.

Definition bind {A B : Type} (c : M A) (k : A -> M B) : M B :=
  fun w => match c w with
           | Some (inl a, w') => k a w'
           | Some (inr s, w') => Some (inr s, w')
           | None => None
           end.

Notation "x <- c ;; k" := (bind c (fun x => k))
  (at level 61, c at next level, right associativity).
Notation "c ;; k" := (bind c (fun _ => k))
  (at level 61, right associativity).

(** A statement that only changes the state. *)
Definition effect (f : world -> world) : M unit := fun w => Some (inl tt, f w).

(** [if(b) { c }] *)
Definition when (b : bool) (c : M unit) : M unit := if b then c else pure tt.

(** [p->field]: the pointer must point to an object. *)
Definition deref {A : Type} (p : option A) : M A :=
  match p with
  | Some a => pure a
  | None => undefined
  end.

Definition is_null {A : Type} (p : option A) : bool :=
  match p with
  | Some _ => false
  | None => true
  end.

(** The address held by a pointer that has passed its null check. *)
Definition addr (p : pointer) : Z :=
  match p with
  | Some a => a
  | None => 0
  end.

(** A call that is not in return position: the callee's [return]
    becomes the value of the call. *)
Definition invoke (body : M rocsparse_status) : M rocsparse_status :=
  fun w => match body w with
           | Some (inl s, w') => Some (inl s, w')
           | Some (inr s, w') => Some (inl s, w')
           | None => None
           end.

(** Running an entry point to the status it returns. *)
Definition call (body : M rocsparse_status) (w : world) : option (rocsparse_status * world) :=
  match body w with
  | Some (inl s, w') => Some (s, w')
  | Some (inr s, w') => Some (s, w')
  | None => None
  end.

(** ** Runtime calls whose status the code inspects *)

Definition hipcall (A : Type) : Type := world -> hipError_t * A * world.

(** The runtime answers with the next status; the operation takes
    effect when that status is [hipSuccess]. *)
Definition next_result (w : world) : hipError_t := hd hipSuccess (hip_results w).

Definition consume (w : world) : world := set_hip_results (tl (hip_results w)) w.

Definition runtime {A : Type} (failed : A) (op : world -> A * world) : hipcall A :=
  fun w =>
    match next_result w with
    | hipSuccess => let (a, w') := op (consume w) in (hipSuccess, a, w')
    | e => (e, failed, consume w)
    end.

Definition RETURN_IF_HIP_ERROR {A : Type} (c : hipcall A) : M A :=
  fun w =>
    let '(e, a, w') := c w in
    match e with
    | hipSuccess => Some (inl a, w')
    | _ => Some (inr (get_rocsparse_status_for_hip_status e), w')
    end.

(** A memset byte pattern read back as a [rocsparse_int]. *)
Definition byte_fill (value : Z) : Z := to_int ((value mod 256) * 16843009).

Definition hipMemsetAsync (dst : Z) (value : Z) (sizeBytes : Z) (stream : Z) : hipcall unit :=
  runtime tt (fun w =>
    (tt, set_dev_int
           (store_from (dev_int w) dst
              (map (fun _ => byte_fill value) (range (sizeBytes / sizeof_rocsparse_int)))) w)).

(** [hipMemcpy(&x, src, sizeof(rocsparse_int), hipMemcpyDeviceToHost)]
    into a local variable [x] of the host function. *)
Definition hipMemcpy_to_local (src : Z) : hipcall Z :=
  runtime 0 (fun w => (dev_int w src, w)).

Definition memcpy_int (dst src : Z) (sizeBytes : Z) (kind : hipMemcpyKind) (w : world) : world :=
  let data := read_array (dev_int w) src (sizeBytes / sizeof_rocsparse_int) in
  match kind with
  | hipMemcpyDeviceToHost => set_host_int (store_from (host_int w) dst data) w
  | hipMemcpyDeviceToDevice => set_dev_int (store_from (dev_int w) dst data) w
  end.

Definition hipMemcpy (dst src : Z) (sizeBytes : Z) (kind : hipMemcpyKind) : hipcall unit :=
  runtime tt (fun w => (tt, memcpy_int dst src sizeBytes kind w)).

Definition hipMemcpyAsync (dst src : Z) (sizeBytes : Z) (kind : hipMemcpyKind)
    (stream : Z) : hipcall unit :=
  runtime tt (fun w => (tt, memcpy_int dst src sizeBytes kind w)).

Definition hipMalloc (size : Z) : hipcall Z :=
  runtime 0 (fun w => (hip_brk w, set_hip_brk (hip_brk w + size) w)).

Definition hipFree (p : Z) : hipcall unit :=
  runtime tt (fun w => (tt, w)).

(** [rocprim::reduce] with [rocprim::plus<rocsparse_int>].  With a null
    [temporary_storage] it only reports the storage it needs; otherwise
    it folds [input[0 .. size)] into [*output], starting from
    [initial_value] when one is given.  The bytes of the temporary
    storage are not part of the state. *)
Definition reduce_value (initial_value : option Z) (data : list Z) : option Z :=
  match initial_value, data with
  | Some v0, _ => Some (fold_left int_add data v0)
  | None, x :: rest => Some (fold_left int_add rest x)
  | None, [] => None
  end.

Definition rocprim_reduce (temporary_storage : pointer) (storage_size : Z)
    (input output : Z) (initial_value : option Z) (size : Z) (stream : Z) : hipcall Z :=
  runtime storage_size (fun w =>
    match temporary_storage with
    | None => (rocprim_reduce_temp_storage size, w)
    | Some _ =>
        (storage_size,
         match reduce_value initial_value (read_array (dev_int w) input size) with
         | Some v => set_dev_int (upd (dev_int w) output v) w
         | None => w
         end)
    end).

(** ** Device passes *)

(** Runtime calls whose status the code discards are represented by
    their effect alone. *)

(** [hipMemset2DAsync(dst, pitch, 0, width, height, stream)], with
    pitch and width counted in elements of [T]: [height] runs of
    [width] zeroed elements, [pitch] apart. *)
Definition zero_rows (dst pitch width : Z) (js : list Z) (mem : Z -> T) : Z -> T :=
  fold_left
    (fun mem j => store_from mem (dst + j * pitch) (map (fun _ => scalar_zero) (range width)))
    js mem.

Definition hipMemset2DAsync (dst pitch width height : Z) (stream : Z) (w : world) : world :=
  set_dev_val (zero_rows dst pitch width (range height) (dev_val w)) w.

(** Copies between cells of the value memory, performed in order. *)
Definition copy_cells (cs : list (Z * Z)) (mem : Z -> T) : Z -> T :=
  fold_left (fun mem c => upd mem (fst c) (mem (snd c))) cs mem.

(** Modelled from the spec: the scatter kernels of csx2dense_device.h,
    which is not among the sources.  Spec 4.3: a row-oriented or
    column-oriented scatter kernel that writes each compressed entry to
    its dense coordinate; the dense buffer holds entry (i, j) at
    [i + j * ld], the layout the zero fill of the caller assumes.
    Each pair is (destination cell, source cell); [cell] gives the
    dense cell of an entry from the row or column it is stored under
    and the index stored with it. *)
Definition scatter_copies (ints : Z -> Z) (idx_base count : Z)
    (csx_val csx_ptr csx_ind : Z) (cell : Z -> Z -> Z) : list (Z * Z) :=
  flat_map
    (fun o =>
       map (fun k => (cell o (ints (csx_ind + k) - idx_base), csx_val + k))
           (interval (ints (csx_ptr + o) - idx_base) (ints (csx_ptr + o + 1) - idx_base)))
    (range count).

Definition csr2dense_copies (ints : Z -> Z) (idx_base m : Z)
    (csr_val csr_row_ptr csr_col_ind dense_val ld : Z) : list (Z * Z) :=
  scatter_copies ints idx_base m csr_val csr_row_ptr csr_col_ind
                 (fun row col => dense_val + col * ld + row).

Definition csc2dense_copies (ints : Z -> Z) (idx_base n : Z)
    (csc_val csc_col_ptr csc_row_ind dense_val ld : Z) : list (Z * Z) :=
  scatter_copies ints idx_base n csc_val csc_col_ptr csc_row_ind
                 (fun col row => dense_val + col * ld + row).

(** Modelled from the spec: the counting kernel of
    nnz_compress_device.h, which is not among the sources.  Spec 4.2:
    per row, how many entries have magnitude strictly greater than the
    tolerance.  A count is a [rocsparse_int]. *)
Definition nnz_compress_counts (ints : Z -> Z) (vals : Z -> T) (idx_base m : Z)
    (csr_val_A csr_row_ptr_A : Z) (tol : T) : list Z :=
  map (fun i =>
         to_int
           (Z.of_nat (length (filter (fun k => abs_gt (vals (csr_val_A + k)) (std_real tol))
                                     (interval (ints (csr_row_ptr_A + i) - idx_base)
                                               (ints (csr_row_ptr_A + i + 1) - idx_base))))))
      (range m).

Definition run_kernel (k : kernel) (w : world) : world :=
  match k with
  | nnz_compress_kernel _ _ _ _ m idx_base_A csr_val_A csr_row_ptr_A nnz_per_row tol =>
      set_dev_int
        (store_from (dev_int w) nnz_per_row
           (nnz_compress_counts (dev_int w) (dev_val w) idx_base_A m csr_val_A csr_row_ptr_A tol))
        w
  | csr2dense_kernel _ _ idx_base m n csr_val csr_row_ptr csr_col_ind dense_val ld =>
      set_dev_val
        (copy_cells (csr2dense_copies (dev_int w) idx_base m csr_val csr_row_ptr csr_col_ind
                                      dense_val ld)
                    (dev_val w))
        w
  | csc2dense_kernel _ _ idx_base m n csc_val csc_col_ptr csc_row_ind dense_val ld =>
      set_dev_val
        (copy_cells (csc2dense_copies (dev_int w) idx_base n csc_val csc_col_ptr csc_row_ind
                                      dense_val ld)
                    (dev_val w))
        w
  end.

Definition hipLaunchKernelGGL (k : kernel) (numBlocks dimBlocks : Z)
    (sharedMemBytes : Z) (stream : Z) : M unit :=
  effect (fun w => add_launch (mk_launch k numBlocks dimBlocks) (run_kernel k w)).

(** Modelled from the spec: the counting pass [rocsparse_nnz_template]
    of rocsparse_nnz.hpp, which is not among the sources.  Spec 4.1: one
    parallel pass scans the dense buffer writing per-row/column counts. *)
Definition count_nonzero (vals : list T) : Z :=
  to_int (Z.of_nat (length (filter is_nonzero vals))).

Definition nnz_counts (vals : Z -> T) (dir : rocsparse_direction) (m n : Z) (A ld : Z) : list Z :=
  if dir =? rocsparse_direction_row
  then map (fun i => count_nonzero (map (fun j => vals (A + i + j * ld)) (range n))) (range m)
  else map (fun j => count_nonzero (map (fun i => vals (A + i + j * ld)) (range m))) (range n).

Definition rocsparse_nnz_template (handle : rocsparse_handle) (dir : rocsparse_direction)
    (m n : Z) (A : Z) (ld : Z) (nnz_per_row_columns : Z) : M rocsparse_status :=
  when ((0 =? m) || (0 =? n)) (Return rocsparse_status_success) ;;
  if (dir =? rocsparse_direction_row) || (dir =? rocsparse_direction_column)
  then
    effect (fun w => set_dev_int
                       (store_from (dev_int w) nnz_per_row_columns
                                   (nnz_counts (dev_val w) dir m n A ld)) w) ;;
    Return rocsparse_status_success
  else Return rocsparse_status_invalid_value.

(** Modelled from the spec: the accessor [rocsparse_get_pointer_mode]
    of the handle, which is not among the sources.  Spec 3: the handle
    owns a pointer-mode flag; spec 6: a null handle is the
    invalid-handle status.  The second component is what is stored
    through the [mode] argument. *)
Definition rocsparse_get_pointer_mode (handle : rocsparse_handle)
    : rocsparse_status * rocsparse_pointer_mode :=
  match handle with
  | None => (rocsparse_status_invalid_handle, rocsparse_pointer_mode_host)
  | Some h => (rocsparse_status_success, pointer_mode h)
  end.

Definition is_device (mode : rocsparse_pointer_mode) : bool :=
  match mode with
  | rocsparse_pointer_mode_device => true
  | rocsparse_pointer_mode_host => false
  end.

Definition is_general (t : rocsparse_matrix_type) : bool :=
  match t with
  | rocsparse_matrix_type_general => true
  | _ => false
  end.

(** ** [rocsparse_nnz_impl] (src/unnamed/part_000) *)

Definition rocsparse_nnz_impl (handle : rocsparse_handle) (dir : rocsparse_direction)
    (m n : Z) (descr : rocsparse_mat_descr) (A : pointer) (ld : Z)
    (nnz_per_row_columns nnz_total_dev_host_ptr : pointer) : M rocsparse_status :=
  (* Checks for valid handle *)
  when (is_null handle) (Return rocsparse_status_invalid_handle) ;;
  h <- deref handle ;;
  (* log_trace and log_bench receive the arguments by value *)
  (* Check validity of the direction. *)
  when (negb (rocsparse_direction_row =? dir) && negb (rocsparse_direction_column =? dir))
       (Return rocsparse_status_invalid_value) ;;
  (* Check sizes *)
  when ((m <? 0) || (n <? 0) || (ld <? m)) (Return rocsparse_status_invalid_size) ;;
  (* Quick return if possible, before checking for invalid pointers. *)
  when ((m =? 0) || (n =? 0))
       (when (negb (is_null nnz_total_dev_host_ptr))
             (let (status, mode) := rocsparse_get_pointer_mode handle in
              when (negb (status_eqb rocsparse_status_success status)) (Return status) ;;
              if is_device mode
              then RETURN_IF_HIP_ERROR
                     (hipMemsetAsync (addr nnz_total_dev_host_ptr) 0 sizeof_rocsparse_int
                                     (stream h))
              else effect (fun w => set_host_int
                                      (upd (host_int w) (addr nnz_total_dev_host_ptr) 0) w)) ;;
        Return rocsparse_status_success) ;;
  (* Check invalid pointers. *)
  when (is_null descr || is_null nnz_per_row_columns || is_null A
        || is_null nnz_total_dev_host_ptr)
       (Return rocsparse_status_invalid_pointer) ;;
  (* Check the description type of the matrix. *)
  d <- deref descr ;;
  when (negb (is_general (type d))) (Return rocsparse_status_not_implemented) ;;
  (* Count. *)
  status <- invoke (rocsparse_nnz_template handle dir m n (addr A) ld
                                           (addr nnz_per_row_columns)) ;;
  when (negb (status_eqb status rocsparse_status_success)) (Return status) ;;
  (* Compute the total number of non-zeros. *)
  let mn := if dir =? rocsparse_direction_row then m else n in
  temp_storage_size_bytes <-
    RETURN_IF_HIP_ERROR
      (rocprim_reduce nullptr 0 (addr nnz_per_row_columns) (addr nnz_total_dev_host_ptr)
                      (Some 0) mn (stream h)) ;;
  let temp_storage_size_bytes := temp_storage_size_bytes + sizeof_rocsparse_int in
  (* Device buffer should be sufficient for rocprim in most cases *)
  alloc <-
    (if buffer_size h >=? temp_storage_size_bytes
     then pure (buffer h, false)
     else (d_nnz <- RETURN_IF_HIP_ERROR (hipMalloc temp_storage_size_bytes) ;;
           pure (d_nnz, true))) ;;
  let d_nnz := fst alloc in
  let temp_alloc := snd alloc in
  let temp_storage_ptr := Some (d_nnz + 1) in
  (* Perform reduce *)
  RETURN_IF_HIP_ERROR
    (rocprim_reduce temp_storage_ptr temp_storage_size_bytes (addr nnz_per_row_columns)
                    d_nnz (Some 0) mn (stream h)) ;;
  (* Extract nnz *)
  (if is_device (pointer_mode h)
   then RETURN_IF_HIP_ERROR
          (hipMemcpyAsync (addr nnz_total_dev_host_ptr) d_nnz sizeof_rocsparse_int
                          hipMemcpyDeviceToDevice (stream h))
   else RETURN_IF_HIP_ERROR
          (hipMemcpy (addr nnz_total_dev_host_ptr) d_nnz sizeof_rocsparse_int
                     hipMemcpyDeviceToHost)) ;;
  (* Free rocprim buffer, if allocated *)
  when temp_alloc (RETURN_IF_HIP_ERROR (hipFree d_nnz)) ;;
  Return rocsparse_status_success.

(** ** [rocsparse_nnz_compress_template] (rocsparse_nnz_compress.hpp) *)

Definition rocsparse_nnz_compress_template (handle : rocsparse_handle) (m : Z)
    (descr_A : rocsparse_mat_descr) (csr_val_A csr_row_ptr_A nnz_per_row nnz_C : pointer)
    (tol : T) : M rocsparse_status :=
  (* Check for valid handle and matrix descriptor *)
  when (is_null handle) (Return rocsparse_status_invalid_handle) ;;
  h <- deref handle ;;
  (* log_trace and log_bench receive the arguments by value *)
  (* Check matrix descriptor *)
  when (is_null descr_A) (Return rocsparse_status_invalid_pointer) ;;
  d <- deref descr_A ;;
  (* Check sizes *)
  when (m <? 0) (Return rocsparse_status_invalid_size) ;;
  when (real_lt (std_real tol) (std_real scalar_zero)) (Return rocsparse_status_invalid_value) ;;
  (* Quick return if possible *)
  when (m =? 0)
       (when (negb (is_null nnz_C))
             (if is_device (pointer_mode h)
              then RETURN_IF_HIP_ERROR
                     (hipMemsetAsync (addr nnz_C) 0 sizeof_rocsparse_int (stream h))
              else effect (fun w => set_host_int (upd (host_int w) (addr nnz_C) 0) w)) ;;
        Return rocsparse_status_success) ;;
  (* Check pointer arguments *)
  (if is_null csr_val_A then Return rocsparse_status_invalid_pointer
   else if is_null csr_row_ptr_A then Return rocsparse_status_invalid_pointer
   else if is_null nnz_per_row then Return rocsparse_status_invalid_pointer
   else if is_null nnz_C then Return rocsparse_status_invalid_pointer
   else pure tt) ;;
  (* Stream *)
  let stream := stream h in
  let block_size := 1024 in
  (* Find number of non-zeros in input CSR matrix on host *)
  nnz_A <- RETURN_IF_HIP_ERROR (hipMemcpy_to_local (addr csr_row_ptr_A + m)) ;;
  (* Mean number of elements per row in the input CSR matrix *)
  let mean_nnz_per_row := Z.quot nnz_A m in
  (* the launch that every branch below repeats with its own segment size *)
  let launch_segments (SEGMENT_SIZE WF_SIZE : Z) : M unit :=
    let segments_per_block := Z.quot block_size SEGMENT_SIZE in
    let grid_size := Z.quot (to_int (to_int (m + segments_per_block) - 1)) segments_per_block in
    hipLaunchKernelGGL
      (nnz_compress_kernel block_size segments_per_block SEGMENT_SIZE WF_SIZE
                           m (base d) (addr csr_val_A) (addr csr_row_ptr_A) (addr nnz_per_row)
                           tol)
      grid_size block_size 0 stream in
  (if wavefront_size h =? 32
   then
     if mean_nnz_per_row <? 4 then launch_segments 2 32
     else if mean_nnz_per_row <? 8 then launch_segments 4 32
     else if mean_nnz_per_row <? 16 then launch_segments 8 32
     else if mean_nnz_per_row <? 32 then launch_segments 16 32
     else launch_segments 32 32
   else if wavefront_size h =? 64
   then
     if mean_nnz_per_row <? 4 then launch_segments 2 64
     else if mean_nnz_per_row <? 8 then launch_segments 4 64
     else if mean_nnz_per_row <? 16 then launch_segments 8 64
     else if mean_nnz_per_row <? 32 then launch_segments 16 64
     else if mean_nnz_per_row <? 64 then launch_segments 32 64
     else launch_segments 64 64
   else Return rocsparse_status_arch_mismatch) ;;
  dnnz_C <-
    (if is_device (pointer_mode h)
     then pure (addr nnz_C)
     else RETURN_IF_HIP_ERROR (hipMalloc sizeof_rocsparse_int)) ;;
  (* Perform inclusive scan on csr row pointer array *)
  temp_storage_size_bytes <-
    RETURN_IF_HIP_ERROR
      (rocprim_reduce nullptr 0 (addr nnz_per_row) dnnz_C None m stream) ;;
  alloc <-
    (if buffer_size h >=? temp_storage_size_bytes
     then pure (buffer h, false)
     else (temp_storage_ptr <- RETURN_IF_HIP_ERROR (hipMalloc temp_storage_size_bytes) ;;
           pure (temp_storage_ptr, true))) ;;
  let temp_storage_ptr := fst alloc in
  let temp_alloc := snd alloc in
  RETURN_IF_HIP_ERROR
    (rocprim_reduce (Some temp_storage_ptr) temp_storage_size_bytes (addr nnz_per_row)
                    dnnz_C None m stream) ;;
  when (negb (is_device (pointer_mode h)))
       (RETURN_IF_HIP_ERROR
          (hipMemcpy (addr nnz_C) dnnz_C sizeof_rocsparse_int hipMemcpyDeviceToHost) ;;
        RETURN_IF_HIP_ERROR (hipFree dnnz_C)) ;;
  when temp_alloc (RETURN_IF_HIP_ERROR (hipFree temp_storage_ptr)) ;;
  Return rocsparse_status_success.

(** ** [rocsparse_csx2dense_template] (rocsparse_csx2dense.hpp) *)

Definition rocsparse_csx2dense_template (DIRA : rocsparse_direction)
    (handle : rocsparse_handle) (m n : Z) (descr : rocsparse_mat_descr)
    (csx_val csx_row_col_ptr csx_col_row_ind A : pointer) (ld : Z) : M rocsparse_status :=
  when ((0 =? m) || (0 =? n)) (Return rocsparse_status_success) ;;
  h <- deref handle ;;
  let stream := stream h in
  if DIRA =? rocsparse_direction_row
  then
    let WAVEFRONT_SIZE := 64 in
    let NROWS_PER_BLOCK := 16 in
    let blocks := to_int (Z.quot (to_int (m - 1)) NROWS_PER_BLOCK + 1) in
    d <- deref descr ;;
    hipLaunchKernelGGL
      (csr2dense_kernel NROWS_PER_BLOCK WAVEFRONT_SIZE (base d) m n
                        (addr csx_val) (addr csx_row_col_ptr) (addr csx_col_row_ind)
                        (addr A) ld)
      blocks (WAVEFRONT_SIZE * NROWS_PER_BLOCK) 0 stream ;;
    Return rocsparse_status_success
  else if DIRA =? rocsparse_direction_column
  then
    let WAVEFRONT_SIZE := 64 in
    let NCOLUMNS_PER_BLOCK := 16 in
    let blocks := to_int (Z.quot (to_int (n - 1)) NCOLUMNS_PER_BLOCK + 1) in
    d <- deref descr ;;
    hipLaunchKernelGGL
      (csc2dense_kernel NCOLUMNS_PER_BLOCK WAVEFRONT_SIZE (base d) m n
                        (addr csx_val) (addr csx_row_col_ptr) (addr csx_col_row_ind)
                        (addr A) ld)
      blocks (WAVEFRONT_SIZE * NCOLUMNS_PER_BLOCK) 0 stream ;;
    Return rocsparse_status_success
  else Return rocsparse_status_invalid_value.

(** ** [rocsparse_csx2dense_impl] (rocsparse_csx2dense_impl.hpp) *)

Definition rocsparse_csx2dense_impl (DIRA : rocsparse_direction)
    (handle : rocsparse_handle) (m n : Z) (descr : rocsparse_mat_descr)
    (csx_val csx_row_col_ptr csx_col_row_ind A : pointer) (lda : Z) : M rocsparse_status :=
  (* Checks for valid handle *)
  when (is_null handle) (Return rocsparse_status_invalid_handle) ;;
  h <- deref handle ;;
  (* log_trace receives the pointers themselves; the last argument of
     log_bench is the member access descr->base *)
  logged_base <- deref descr ;;
  (* Check sizes *)
  when ((m <? 0) || (n <? 0) || (lda <? m)) (Return rocsparse_status_invalid_size) ;;
  (* Quick return if possible, before checking for invalid pointers. *)
  when ((m =? 0) || (n =? 0)) (Return rocsparse_status_success) ;;
  (* Check invalid pointers. *)
  when (is_null descr || is_null A || is_null csx_row_col_ptr || is_null csx_col_row_ind
        || is_null csx_val)
       (Return rocsparse_status_invalid_pointer) ;;
  (* Check the description type of the matrix. *)
  d <- deref descr ;;
  when (negb (is_general (type d))) (Return rocsparse_status_not_implemented) ;;
  (* Set memory to zero. *)
  effect (hipMemset2DAsync (addr A) lda m n (stream h)) ;;
  (* Compute the conversion. *)
  rocsparse_csx2dense_template DIRA handle m n descr csx_val csx_row_col_ptr csx_col_row_ind
                               A lda.

(** ** [csr2csc_permute_kernel] (csr2csc_device.h)

    One lane of the kernel, identified by its block and thread index. *)
Definition csr2csc_permute_kernel (BLOCKSIZE : Z) (hipBlockIdx_x hipThreadIdx_x : Z)
    (nnz : Z) (in1 in2 map out1 out2 : Z) (w : world) : world :=
  let gid := to_int (to_uint (hipBlockIdx_x * BLOCKSIZE + hipThreadIdx_x)) in
  if gid >=? nnz
  then w
  else
    let idx := dev_int w (map + gid) in
    let w1 := set_dev_int (upd (dev_int w) (out1 + gid) (dev_int w (in1 + idx))) w in
    set_dev_val (upd (dev_val w1) (out2 + gid) (dev_val w1 (in2 + idx))) w1.

(** ** Vocabulary of the properties *)

(** The total an entry point reports: read where the pointer mode of
    the handle says the total pointer lives. *)
Definition total_of (h : _rocsparse_handle) (p : Z) (w : world) : Z :=
  if is_device (pointer_mode h) then dev_int w p else host_int w p.

(** The state a computation leaves. *)
Definition state_after {A : Type} (c : M A) (w : world) : world :=
  match c w with
  | Some (_, w') => w'
  | None => w
  end.

(** [post c w Q R]: run from [w], the computation [c] is defined and
    ends with a value and state in [Q] or returns a status and state
    in [R]. *)
Definition post {A : Type} (c : M A) (w : world)
    (Q : A -> world -> Prop) (R : rocsparse_status -> world -> Prop) : Prop :=
  match c w with
  | Some (inl a, w') => Q a w'
  | Some (inr s, w') => R s w'
  | None => False
  end.

End Machine.

Arguments world T : clear implicits.
Arguments kernel T : clear implicits.
Arguments launch T : clear implicits.
Arguments M T : clear implicits.

(** ** Concrete data for running the routines *)

(** Modelled from the spec: the table of status.cpp that translates
    runtime errors, which is not among the sources.  Spec 6 and 7:
    device-runtime failures are propagated by translating them into a
    status code, memory-error standing for allocation failure; a device
    pointer or handle the runtime rejects is reported as such, and
    anything else as an internal error.  The temporary storage of the
    reduction is a fixed figure. *)
#[export] Instance library_runtime : Runtime := {|
  get_rocsparse_status_for_hip_status := fun e =>
    match e with
    | hipSuccess => rocsparse_status_success
    | hipErrorOutOfMemory | hipErrorLaunchOutOfResources => rocsparse_status_memory_error
    | hipErrorInvalidDevicePointer => rocsparse_status_invalid_pointer
    | hipErrorInvalidDevice | hipErrorInvalidResourceHandle => rocsparse_status_invalid_handle
    | hipErrorInvalidValue | hipErrorNoDevice | hipErrorUnknown =>
        rocsparse_status_internal_error
    end;
  rocprim_reduce_temp_storage := fun size => 256
|}.

(** Memory whose cells [0, 1, ...] hold the given list, [d] elsewhere. *)
Definition mem_of {V : Type} (d : V) (l : list V) : Z -> V :=
  fun a => if a <? 0 then d else nth (Z.to_nat a) l d.

Definition host_handle : _rocsparse_handle :=
  mk_handle 0 rocsparse_pointer_mode_host 64 900 4096.

Definition device_handle : _rocsparse_handle :=
  mk_handle 0 rocsparse_pointer_mode_device 64 900 4096.

Definition general_descr : _rocsparse_mat_descr :=
  mk_mat_descr rocsparse_matrix_type_general rocsparse_index_base_zero.

(** A machine whose device holds, from address 10 on, the 2-by-2
    identity in CSR form with base 0: values at 10, row pointers at 20,
    column indices at 30; every other cell holds 7. *)
Definition identity_ints : Z -> Z :=
  store_from (store_from (fun _ => 7) 20 [0; 1; 2]) 30 [0; 1].

Definition identity_vals : Z -> Z := store_from (fun _ => 7) 10 [1; 1].

Definition identity_world (results : list hipError_t) : world Z :=
  mk_world (fun _ => 7) identity_ints identity_vals results 1000 [].

Definition narrow_handle : _rocsparse_handle :=
  mk_handle 0 rocsparse_pointer_mode_host 16 900 4096.

(** A machine whose device holds one CSR row of five entries with base
    0: values at 10, row pointers at 20, column indices at 30. *)
Definition row5_world (results : list hipError_t) : world Z :=
  mk_world (fun _ => 7)
           (store_from (store_from (fun _ => 7) 20 [0; 5]) 30 [0; 1; 2; 3; 4])
           (store_from (fun _ => 7) 10 [1; 2; 3; 4; 5])
           results 1000 [].

(** A machine whose device holds, from address 10 on, the dense 2-by-2
    matrix with rows (1 1) and (0 1), stored column by column. *)
Definition dense_world (results : list hipError_t) : world Z :=
  mk_world (fun _ => 7) (fun _ => 7) (store_from (fun _ => 7) 10 [1; 0; 1; 1]) results 1000 [].

(** A machine over complex elements. *)
Definition complex_world : world (complex Z) :=
  mk_world (fun _ => 7) (fun _ => 7) (fun _ => mk_complex 1 1) [] 1000 [].

(** ** Segment sizes *)

(** The segment size the dispatch of [rocsparse_nnz_compress_template]
    arrives at, in closed form: the largest power of two not above the
    mean, kept between 2 and the wavefront width. *)
Definition code_segment_size (wavefront mean : Z) : Z :=
  Z.min wavefront (Z.max 2 (2 ^ Z.log2 mean)).

(** The segment size in the words of the spec (4.2): the smallest
    power of two not below the mean, up to the wavefront width. *)
Definition spec_segment_size (wavefront mean : Z) : Z :=
  Z.min wavefront (2 ^ Z.log2_up mean).

(** ** A launch of the permutation kernel *)

Section Grid.
Context {T : Type}.

(** The position a lane computes for itself. *)
Definition lane_gid (BLOCKSIZE : Z) (lane : Z * Z) : Z :=
  to_int (to_uint (fst lane * BLOCKSIZE + snd lane)).

(** Lanes, each a (block, thread) pair, run one after the other in the
    order of the list. *)
Definition run_lanes (BLOCKSIZE : Z) (lanes : list (Z * Z))
    (nnz in1 in2 map out1 out2 : Z) (w : world T) : world T :=
  fold_left
    (fun w lane =>
       csr2csc_permute_kernel BLOCKSIZE (fst lane) (snd lane) nnz in1 in2 map out1 out2 w)
    lanes w.

(** The lanes of a launch of [numBlocks] blocks of [BLOCKSIZE] threads. *)
Definition grid_lanes (numBlocks BLOCKSIZE : Z) : list (Z * Z) :=
  flat_map (fun b => map (fun t => (b, t)) (range BLOCKSIZE)) (range numBlocks).

End Grid.

(** A machine for the permutation kernel: [in1] at 10, [map] at 20,
    [in2] at 30, and room for the outputs at 40 and 50. *)
Definition permute_world : world Z :=
  mk_world (fun _ => 7)
           (store_from (store_from (fun _ => 7) 10 [5; 6; 8]) 20 [2; 0; 1])
           (store_from (fun _ => 7) 30 [50; 60; 80])
           [] 1000 [].

(** A handle whose buffer is too small for the temporary storage of a
    reduction. *)
Definition small_buffer_handle : _rocsparse_handle :=
  mk_handle 0 rocsparse_pointer_mode_host 64 900 16.

(** * Properties *)

(** ** Memory and integers *)

Lemma upd_eq {V : Type} (mem : Z -> V) (a : Z) (v : V) : upd mem a v a = v.
Proof. unfold upd. rewrite Z.eqb_refl. reflexivity. Qed.

Lemma upd_neq {V : Type} (mem : Z -> V) (a x : Z) (v : V) : x <> a -> upd mem a v x = mem x.
Proof. intros Hx. unfold upd. apply Z.eqb_neq in Hx. rewrite Hx. reflexivity. Qed.

Lemma range_length (n : Z) : length (range n) = Z.to_nat n.
Proof. unfold range. rewrite length_map, length_seq. reflexivity. Qed.

Lemma range_In (n i : Z) : In i (range n) <-> 0 <= i < n.
Proof.
  unfold range. rewrite in_map_iff. split.
  - intros [k [<- Hk]]. apply in_seq in Hk. lia.
  - intros Hi. exists (Z.to_nat i). split; [lia|]. apply in_seq. lia.
Qed.

Lemma range_nth (n : Z) (k : nat) (d : Z) :
  (k < Z.to_nat n)%nat -> nth k (range n) d = Z.of_nat k.
Proof.
  intros Hk. unfold range.
  rewrite (nth_indep _ d (Z.of_nat 0)) by (rewrite length_map, length_seq; exact Hk).
  rewrite map_nth, seq_nth by exact Hk. reflexivity.
Qed.

Lemma interval_In (lo hi k : Z) : In k (interval lo hi) <-> lo <= k < hi.
Proof.
  unfold interval. rewrite in_map_iff. split.
  - intros [i [<- Hi]]. apply range_In in Hi. lia.
  - intros Hk. exists (k - lo). split; [lia|]. apply range_In. lia.
Qed.

Lemma nth_const {V : Type} (v d : V) (l : list Z) (k : nat) :
  (k < length l)%nat -> nth k (map (fun _ => v) l) d = v.
Proof.
  revert k. induction l as [|x l IH]; intros k Hk; [cbn in Hk; lia|].
  destruct k; [reflexivity|]. cbn. apply IH. cbn in Hk. lia.
Qed.

Lemma seq_split (i n : nat) :
  (i < n)%nat -> seq 0 n = seq 0 i ++ i :: seq (S i) (n - S i).
Proof.
  intros Hi. replace n with (i + (1 + (n - S i)))%nat at 1 by lia.
  rewrite seq_app. cbn [Nat.add seq]. reflexivity.
Qed.

(** A range splits at each of its elements; what follows is larger. *)
Lemma range_split (i n : Z) :
  0 <= i < n -> exists l2, range n = range i ++ i :: l2 /\ forall x, In x l2 -> i < x < n.
Proof.
  intros Hi. unfold range.
  rewrite (seq_split (Z.to_nat i) (Z.to_nat n)) by lia.
  rewrite map_app. cbn [map]. rewrite Z2Nat.id by lia.
  eexists. split; [reflexivity|].
  intros x Hx. apply in_map_iff in Hx. destruct Hx as [k [<- Hk]].
  apply in_seq in Hk. lia.
Qed.

Lemma interval_split (lo hi k : Z) :
  lo <= k < hi ->
  exists l2, interval lo hi = interval lo k ++ k :: l2 /\ forall x, In x l2 -> k < x < hi.
Proof.
  intros Hk. unfold interval.
  destruct (range_split (k - lo) (hi - lo)) as [l2 [E Hl2]]; [lia|].
  rewrite E, map_app. cbn [map]. replace (lo + (k - lo)) with k by lia.
  eexists. split; [reflexivity|].
  intros x Hx. apply in_map_iff in Hx. destruct Hx as [y [<- Hy]].
  apply Hl2 in Hy. lia.
Qed.

Lemma store_from_spec {V : Type} (vs : list V) (mem : Z -> V) (p a : Z) :
  store_from mem p vs a
  = if (p <=? a) && (a <? p + Z.of_nat (length vs))
    then nth (Z.to_nat (a - p)) vs (mem a)
    else mem a.
Proof.
  revert mem p. induction vs as [|v vs IH]; intros mem p.
  - cbn [store_from length]. destruct ((p <=? a) && (a <? p + Z.of_nat 0)) eqn:E; [|reflexivity].
    apply andb_true_iff in E. destruct E as [E1 E2].
    apply Z.leb_le in E1. apply Z.ltb_lt in E2. lia.
  - cbn [store_from]. rewrite IH. cbn [length].
    destruct (Z.eq_dec a p) as [-> | Hne].
    + rewrite upd_eq.
      replace (p + 1 <=? p) with false by (symmetry; apply Z.leb_gt; lia).
      replace (p <=? p) with true by (symmetry; apply Z.leb_le; lia).
      replace (p <? p + Z.of_nat (S (length vs))) with true by (symmetry; apply Z.ltb_lt; lia).
      replace (p - p) with 0 by lia. reflexivity.
    + rewrite upd_neq by exact Hne.
      replace (a <? p + 1 + Z.of_nat (length vs)) with (a <? p + Z.of_nat (S (length vs)))
        by (f_equal; lia).
      destruct (Z.leb_spec (p + 1) a); destruct (Z.leb_spec p a); try lia; [|reflexivity].
      cbn [andb]. destruct (a <? p + Z.of_nat (S (length vs))); [|reflexivity].
      replace (Z.to_nat (a - p)) with (S (Z.to_nat (a - (p + 1)))) by lia.
      reflexivity.
Qed.

Lemma read_store_from {V : Type} (vs : list V) (mem : Z -> V) (p n : Z) :
  n = Z.of_nat (length vs) -> read_array (store_from mem p vs) p n = vs.
Proof.
  intros ->. destruct vs as [|v0 vs0] eqn:E; [reflexivity|]. rewrite <- E.
  assert (Hlen : length (read_array (store_from mem p vs) p (Z.of_nat (length vs))) = length vs).
  { unfold read_array. rewrite length_map, range_length. lia. }
  apply (nth_ext _ _ v0 v0 Hlen). intros k Hk. rewrite Hlen in Hk.
  unfold read_array.
  rewrite (nth_indep _ v0 (store_from mem p vs (p + 0)))
    by (rewrite length_map, range_length; lia).
  rewrite (map_nth (fun i => store_from mem p vs (p + i)) (range (Z.of_nat (length vs))) 0 k).
  rewrite range_nth by lia.
  rewrite store_from_spec.
  destruct (Z.leb_spec p (p + Z.of_nat k)); [|lia].
  destruct (Z.ltb_spec (p + Z.of_nat k) (p + Z.of_nat (length vs))); [|lia].
  cbn [andb]. replace (Z.to_nat (p + Z.of_nat k - p)) with k by lia.
  apply nth_indep. exact Hk.
Qed.

Lemma copy_one {V : Type} (g f : Z -> V) (dst src : Z) :
  store_from g dst (read_array f src (sizeof_rocsparse_int / sizeof_rocsparse_int))
  = upd g dst (f src).
Proof.
  unfold read_array. change (range (sizeof_rocsparse_int / sizeof_rocsparse_int)) with [0].
  cbn [map store_from]. rewrite Z.add_0_r. reflexivity.
Qed.

Lemma to_int_range (z : Z) : INT_MIN <= to_int z <= INT_MAX.
Proof.
  unfold to_int, INT_MIN, INT_MAX.
  pose proof (Z.mod_pos_bound (z + 2 ^ 31) (2 ^ 32) ltac:(lia)). lia.
Qed.

Lemma to_int_small (z : Z) : INT_MIN <= z <= INT_MAX -> to_int z = z.
Proof.
  unfold to_int, INT_MIN, INT_MAX. intros Hz.
  rewrite Z.mod_small by lia. lia.
Qed.

Lemma to_int_idem (z : Z) : to_int (to_int z) = to_int z.
Proof. apply to_int_small, to_int_range. Qed.

Lemma to_int_add_l (a b : Z) : to_int (to_int a + b) = to_int (a + b).
Proof.
  unfold to_int. f_equal.
  replace ((a + 2 ^ 31) mod 2 ^ 32 - 2 ^ 31 + b + 2 ^ 31)
    with ((a + 2 ^ 31) mod 2 ^ 32 + b) by lia.
  rewrite Zplus_mod_idemp_l. f_equal. lia.
Qed.

Lemma fold_int_add (l : list Z) (a : Z) :
  fold_left int_add l (to_int a) = to_int (a + Zsum l).
Proof.
  revert a. induction l as [|x l IH]; intros a.
  - cbn. rewrite Z.add_0_r. reflexivity.
  - change (Zsum (x :: l)) with (x + Zsum l).
    cbn [fold_left]. change (int_add (to_int a) x) with (to_int (to_int a + x)).
    rewrite to_int_add_l, IH. f_equal. lia.
Qed.

Lemma int_sum_wrap (l : list Z) : int_sum l = to_int (Zsum l).
Proof.
  unfold int_sum. change 0 with (to_int 0) at 1. apply fold_int_add.
Qed.

Lemma int_sum_exact (l : list Z) : INT_MIN <= Zsum l <= INT_MAX -> int_sum l = Zsum l.
Proof. intros Hl. rewrite int_sum_wrap. apply to_int_small. exact Hl. Qed.

(** Both forms of [rocprim::reduce] compute [int_sum] on data that are
    [rocsparse_int] values. *)
Lemma reduce_value_init (data : list Z) : reduce_value (Some 0) data = Some (int_sum data).
Proof. reflexivity. Qed.

Lemma reduce_value_noinit (x : Z) (rest : list Z) :
  to_int x = x -> reduce_value None (x :: rest) = Some (int_sum (x :: rest)).
Proof.
  intros Hx. unfold reduce_value, int_sum. cbn [fold_left].
  unfold int_add at 3. cbn [Z.add]. rewrite Hx. reflexivity.
Qed.

(** ** The dispatch in closed form *)

Lemma log2_between (k a : Z) : 0 <= k -> 2 ^ k <= a < 2 ^ (k + 1) -> Z.log2 a = k.
Proof.
  intros Hk Ha. apply Z.log2_unique; [assumption|].
  replace (Z.succ k) with (k + 1) by lia. assumption.
Qed.

Lemma code_segment_size_chain (wavefront mean : Z) :
  wavefront = 32 \/ wavefront = 64 ->
  code_segment_size wavefront mean
  = if mean <? 4 then 2
    else if mean <? 8 then 4
    else if mean <? 16 then 8
    else if mean <? 32 then 16
    else if (mean <? 64) || (wavefront =? 32) then 32
    else 64.
Proof.
  intros Hwf. unfold code_segment_size.
  destruct (Z.ltb_spec mean 4).
  { assert (Hl : Z.log2 mean <= 1).
    { destruct (Z_lt_le_dec mean 2).
      - destruct (Z_lt_le_dec mean 1).
        + rewrite Z.log2_nonpos by lia. lia.
        + replace mean with 1 by lia. cbn. lia.
      - rewrite (log2_between 1 mean) by (cbn; lia). lia. }
    assert (H2 : 2 ^ Z.log2 mean <= 2).
    { change 2 with (2 ^ 1) at 2. apply Z.pow_le_mono_r; [lia | assumption]. }
    lia. }
  destruct (Z.ltb_spec mean 8).
  { rewrite (log2_between 2 mean) by (cbn; lia). cbn. lia. }
  destruct (Z.ltb_spec mean 16).
  { rewrite (log2_between 3 mean) by (cbn; lia). cbn. lia. }
  destruct (Z.ltb_spec mean 32).
  { rewrite (log2_between 4 mean) by (cbn; lia). cbn. lia. }
  destruct (Z.ltb_spec mean 64).
  { rewrite (log2_between 5 mean) by (cbn; lia). cbn. destruct Hwf; subst; cbn; lia. }
  assert (H6 : 2 ^ 6 <= 2 ^ Z.log2 mean).
  { apply Z.pow_le_mono_r; [lia|]. change 6 with (Z.log2 64). apply Z.log2_le_mono. lia. }
  change (2 ^ 6) with 64 in H6.
  destruct Hwf; subst; cbn; lia.
Qed.

(** ** Copies between cells *)

Section Copies.
Context {T : Type}.

Lemma copy_cells_untouched (cs : list (Z * Z)) (mem : Z -> T) (a : Z) :
  (forall c, In c cs -> fst c <> a) -> copy_cells cs mem a = mem a.
Proof.
  revert mem. induction cs as [|c cs IH]; intros mem Hcs; [reflexivity|].
  change (copy_cells cs (upd mem (fst c) (mem (snd c))) a = mem a). rewrite IH.
  - apply upd_neq. intros E. apply (Hcs c); [left; reflexivity | auto].
  - intros c' Hc'. apply Hcs. right. exact Hc'.
Qed.

Lemma copy_cells_last (cs1 cs2 : list (Z * Z)) (c : Z * Z) (mem : Z -> T) :
  (forall c', In c' cs1 -> fst c' <> snd c) ->
  (forall c', In c' cs2 -> fst c' <> fst c) ->
  copy_cells (cs1 ++ c :: cs2) mem (fst c) = mem (snd c).
Proof.
  intros H1 H2.
  assert (E : copy_cells (cs1 ++ c :: cs2) mem
              = copy_cells cs2 (upd (copy_cells cs1 mem) (fst c) (copy_cells cs1 mem (snd c)))).
  { unfold copy_cells. rewrite fold_left_app. reflexivity. }
  rewrite E, copy_cells_untouched by exact H2.
  rewrite upd_eq. apply copy_cells_untouched. exact H1.
Qed.

End Copies.

Section Scatter.
Context {T : Type}.
Variables (ints : Z -> Z) (idx_base count bound : Z) (val ptr ind : Z) (cell : Z -> Z -> Z).

Let first_of (o : Z) : Z := ints (ptr + o) - idx_base.
Let end_of (o : Z) : Z := ints (ptr + o + 1) - idx_base.
Let index_of (k : Z) : Z := ints (ind + k) - idx_base.

Hypothesis cell_injective :
  forall o c o' c',
    0 <= o < count -> 0 <= c < bound -> 0 <= o' < count -> 0 <= c' < bound ->
    cell o c = cell o' c' -> o = o' /\ c = c'.
Hypothesis index_in_bounds :
  forall o k, 0 <= o < count -> first_of o <= k < end_of o -> 0 <= index_of k < bound.
Hypothesis sources_apart :
  forall o k o' c',
    0 <= o < count -> first_of o <= k < end_of o -> 0 <= o' < count -> 0 <= c' < bound ->
    cell o' c' <> val + k.

Lemma scatter_copies_In (c : Z * Z) :
  In c (scatter_copies ints idx_base count val ptr ind cell) ->
  exists o k, 0 <= o < count /\ first_of o <= k < end_of o
              /\ c = (cell o (index_of k), val + k).
Proof.
  unfold scatter_copies. intros Hc. apply in_flat_map in Hc.
  destruct Hc as [o [Ho Hc]]. apply in_map_iff in Hc. destruct Hc as [k [<- Hk]].
  apply range_In in Ho. apply interval_In in Hk. exists o, k. auto.
Qed.

Lemma scatter_absent (o c : Z) (mem : Z -> T) :
  0 <= o < count -> 0 <= c < bound ->
  (forall k, first_of o <= k < end_of o -> index_of k <> c) ->
  copy_cells (scatter_copies ints idx_base count val ptr ind cell) mem (cell o c)
  = mem (cell o c).
Proof.
  intros Ho Hc Habs. apply copy_cells_untouched.
  intros c' Hc'. apply scatter_copies_In in Hc'.
  destruct Hc' as [o' [k' [Ho' [Hk' ->]]]]. cbn [fst]. intros E.
  apply (cell_injective o' (index_of k') o c) in E;
    [ | exact Ho' | apply (index_in_bounds o'); assumption | exact Ho | exact Hc].
  destruct E as [-> E]. exact (Habs k' Hk' E).
Qed.

Lemma scatter_present (o k : Z) (mem : Z -> T) :
  0 <= o < count -> first_of o <= k < end_of o ->
  (forall k', k < k' < end_of o -> index_of k' <> index_of k) ->
  copy_cells (scatter_copies ints idx_base count val ptr ind cell) mem (cell o (index_of k))
  = mem (val + k).
Proof.
  intros Ho Hk Hlast.
  destruct (range_split o count Ho) as [os [Eos Hos]].
  destruct (interval_split (first_of o) (end_of o) k Hk) as [ks [Eks Hks]].
  set (entry := fun o k => (cell o (index_of k), val + k)).
  set (row := fun o => map (entry o) (interval (first_of o) (end_of o))).
  assert (E : scatter_copies ints idx_base count val ptr ind cell
              = (flat_map row (range o) ++ map (entry o) (interval (first_of o) k))
                  ++ entry o k :: (map (entry o) ks ++ flat_map row os)).
  { unfold scatter_copies, row, entry. unfold first_of, end_of, index_of in *.
    rewrite Eos, flat_map_app. cbn [flat_map].
    rewrite Eks, map_app. cbn [map]. rewrite <- !app_assoc. reflexivity. }
  rewrite E.
  change (cell o (index_of k)) with (fst (entry o k)).
  change (val + k) with (snd (entry o k)).
  apply copy_cells_last.
  - intros c' Hc'. cbn [entry snd].
    assert (Hin : exists o' k', 0 <= o' < count /\ first_of o' <= k' < end_of o'
                                /\ c' = entry o' k').
    { apply in_app_or in Hc'. destruct Hc' as [Hc' | Hc'].
      - apply in_flat_map in Hc'. destruct Hc' as [o' [Ho' Hc']].
        apply in_map_iff in Hc'. destruct Hc' as [k' [<- Hk']].
        apply range_In in Ho'. apply interval_In in Hk'. exists o', k'. repeat split; lia.
      - apply in_map_iff in Hc'. destruct Hc' as [k' [<- Hk']].
        apply interval_In in Hk'. exists o, k'. repeat split; lia. }
    destruct Hin as [o' [k' [Ho' [Hk' ->]]]]. cbn [entry fst].
    apply (sources_apart o k o' (index_of k')); auto.
    apply (index_in_bounds o'); auto.
  - intros c' Hc'. cbn [entry fst]. apply in_app_or in Hc'. destruct Hc' as [Hc' | Hc'].
    + apply in_map_iff in Hc'. destruct Hc' as [k' [<- Hk']]. apply Hks in Hk'.
      cbn [entry fst]. intros Ecell.
      apply cell_injective in Ecell; auto;
        [| apply (index_in_bounds o); auto; lia | apply (index_in_bounds o); auto].
      destruct Ecell as [_ Ecell]. apply (Hlast k'); [lia | exact Ecell].
    + apply in_flat_map in Hc'. destruct Hc' as [o' [Ho' Hc']].
      apply in_map_iff in Hc'. destruct Hc' as [k' [<- Hk']].
      apply Hos in Ho'. apply interval_In in Hk'. cbn [entry fst]. intros Ecell.
      apply cell_injective in Ecell; auto;
        [| lia | apply (index_in_bounds o'); auto; lia | apply (index_in_bounds o); auto].
      lia.
Qed.

End Scatter.

(** ** Reasoning about host computations *)

Ltac mred :=
  cbv beta iota zeta delta [bind when Return pure deref undefined effect is_null invoke call
                             negb is_device addr].

Ltac world_simpl :=
  cbn [fst snd host_int dev_int dev_val hip_results hip_brk launched
       consume set_host_int set_dev_int set_dev_val set_hip_results set_hip_brk add_launch
       run_kernel memcpy_int] in *.

Ltac split_matches :=
  repeat match goal with
         | |- context [match ?x with _ => _ end] => destruct x
         end.

Section Logic.
Context {T : Type} `{Scalar T} `{Runtime}.

Lemma post_bind {A B : Type} (c : M T A) (k : A -> M T B) w Q R :
  post c w (fun a w' => post (k a) w' Q R) R -> post (bind c k) w Q R.
Proof.
  unfold post, bind. destruct (c w) as [[[a | s] w'] |]; auto.
Qed.

Lemma post_pure {A : Type} (a : A) w (Q : A -> world T -> Prop) R : Q a w -> post (pure a) w Q R.
Proof. auto. Qed.

Lemma post_Return {A : Type} s w (Q : A -> world T -> Prop) R :
  R s w -> post (Return s) w Q R.
Proof. auto. Qed.

Lemma post_effect f w (Q : unit -> world T -> Prop) R : Q tt (f w) -> post (effect f) w Q R.
Proof. auto. Qed.

Lemma post_when (b : bool) c w (Q : unit -> world T -> Prop) R :
  (b = true -> post c w Q R) -> (b = false -> Q tt w) -> post (when b c) w Q R.
Proof.
  destruct b; intros H1 H2; [exact (H1 eq_refl) | exact (H2 eq_refl)].
Qed.

Lemma post_if {A : Type} (b : bool) (c1 c2 : M T A) w Q R :
  (b = true -> post c1 w Q R) -> (b = false -> post c2 w Q R) ->
  post (if b then c1 else c2) w Q R.
Proof.
  destruct b; intros H1 H2; [exact (H1 eq_refl) | exact (H2 eq_refl)].
Qed.

Lemma post_weaken {A : Type} (c : M T A) w (Q Q' : A -> world T -> Prop) (R R' : _ -> _ -> Prop) :
  post c w Q R -> (forall a w', Q a w' -> Q' a w') -> (forall s w', R s w' -> R' s w') ->
  post c w Q' R'.
Proof.
  unfold post. destruct (c w) as [[[a | s] w'] |]; auto.
Qed.

(** A runtime call either succeeds, with its effect on the state that
    has used up one answer, or fails with the answer and no effect. *)
Lemma post_runtime {A : Type} (failed : A) op w (Q : A -> world T -> Prop) R :
  (next_result w = hipSuccess -> Q (fst (op (consume w))) (snd (op (consume w)))) ->
  (next_result w <> hipSuccess ->
   R (get_rocsparse_status_for_hip_status (next_result w)) (consume w)) ->
  post (RETURN_IF_HIP_ERROR (runtime failed op)) w Q R.
Proof.
  intros Hok Herr. unfold post, RETURN_IF_HIP_ERROR, runtime.
  destruct (next_result w) eqn:E;
    try (apply Herr; discriminate).
  destruct (op (consume w)) as [a w']. apply Hok. reflexivity.
Qed.

Lemma post_bind_mid {A B : Type} (c : M T A) (k : A -> M T B) w
    (Mid : A -> world T -> Prop) (Q : B -> world T -> Prop) R :
  post c w Mid R -> (forall a w', Mid a w' -> post (k a) w' Q R) -> post (bind c k) w Q R.
Proof.
  intros Hc Hk. apply post_bind. eapply post_weaken; [exact Hc | exact Hk | auto].
Qed.

Lemma post_value {A : Type} (c : M T A) w a w' (Q : A -> world T -> Prop) R :
  c w = Some (inl a, w') -> Q a w' -> post c w Q R.
Proof. unfold post. intros ->. auto. Qed.

Lemma post_call_inv (body : M T rocsparse_status) w (P : rocsparse_status -> world T -> Prop)
    s w' :
  post body w P P -> call body w = Some (s, w') -> P s w'.
Proof.
  unfold post, call. destruct (body w) as [[[a | s0] w0] |]; intros HP E;
    [injection E as <- <- .. | discriminate]; exact HP.
Qed.

Lemma post_call (body : M T rocsparse_status) w (P : rocsparse_status -> world T -> Prop) :
  post body w P P -> exists s w', call body w = Some (s, w') /\ P s w'.
Proof.
  unfold post, call. destruct (body w) as [[[a | s] w'] |]; intros HP; [eauto .. | contradiction].
Qed.

End Logic.

(** Steps of symbolic execution: [wp_line] runs the statements that do
    not branch, [wp_step] also enters the branches. *)
Ltac wp_line :=
  lazymatch goal with
  | |- post (bind _ _) _ _ _ => apply post_bind
  | |- post (pure _) _ _ _ => apply post_pure
  | |- post (Return _) _ _ _ => apply post_Return
  | |- post (effect _) _ _ _ => apply post_effect
  | |- post (deref (Some _)) _ _ _ => apply post_pure
  | |- post (when false _) _ _ _ => apply post_pure
  | |- post (RETURN_IF_HIP_ERROR (runtime _ _)) _ _ _ => fail
  | |- post (RETURN_IF_HIP_ERROR _) _ _ _ =>
      unfold hipMemsetAsync, hipMemcpy_to_local, hipMemcpy, hipMemcpyAsync, hipMalloc, hipFree,
             rocprim_reduce
  | |- post (hipLaunchKernelGGL _ _ _ _ _) _ _ _ => unfold hipLaunchKernelGGL
  end; cbv beta.

Ltac wp_step :=
  first
    [ wp_line
    | lazymatch goal with
      | |- post (when _ _) _ _ _ => apply post_when; intros ?
      | |- post (if _ then _ else _) _ _ _ => apply post_if; intros ?
      | |- post (RETURN_IF_HIP_ERROR (runtime _ _)) _ _ _ =>
          apply post_runtime; [intros _ | intros ?]
      end; cbv beta ].
(** ** Dense non-zero counting: [rocsparse_nnz_impl] *)

Section Nnz.
Context {T : Type} `{Scalar T} `{Runtime}.

Lemma valid_direction_test (dir : rocsparse_direction) :
  dir = rocsparse_direction_row \/ dir = rocsparse_direction_column ->
  negb (rocsparse_direction_row =? dir) && negb (rocsparse_direction_column =? dir) = false.
Proof.
  intros [-> | ->]; reflexivity.
Qed.

Lemma direction_cases (dir : rocsparse_direction) :
  negb (rocsparse_direction_row =? dir) && negb (rocsparse_direction_column =? dir) = false ->
  dir = rocsparse_direction_row \/ dir = rocsparse_direction_column.
Proof.
  destruct (Z.eqb_spec rocsparse_direction_row dir); [auto|].
  destruct (Z.eqb_spec rocsparse_direction_column dir); [auto|].
  discriminate.
Qed.

Lemma size_test (m n ld : Z) :
  0 <= m -> 0 <= n -> m <= ld -> (m <? 0) || (n <? 0) || (ld <? m) = false.
Proof.
  intros. repeat (apply orb_false_intro); apply Z.ltb_ge; assumption.
Qed.

Lemma zero_test (m n : Z) : m = 0 \/ n = 0 -> (m =? 0) || (n =? 0) = true.
Proof.
  intros [-> | ->]; [reflexivity | apply orb_true_r].
Qed.

(** C9.  With a handle that is not null, a direction that is neither
    row nor column gives [invalid_value] and changes nothing, whatever
    [m], [n], [ld] and the pointers are: the direction is checked before
    the sizes and before the quick return for [m = 0] or [n = 0]. *)
Theorem nnz_invalid_direction (h : _rocsparse_handle) (dir : rocsparse_direction) (m n : Z)
    (descr : rocsparse_mat_descr) (A : pointer) (ld : Z) (counts total : pointer) (w : world T) :
  dir <> rocsparse_direction_row -> dir <> rocsparse_direction_column ->
  call (rocsparse_nnz_impl (Some h) dir m n descr A ld counts total) w
  = Some (rocsparse_status_invalid_value, w).
Proof.
  intros Hr Hc.
  unfold rocsparse_nnz_impl.
  destruct (Z.eqb_spec rocsparse_direction_row dir) as [E|_]; [congruence|].
  destruct (Z.eqb_spec rocsparse_direction_column dir) as [E|_]; [congruence|].
  mred. reflexivity.
Qed.

Lemma nnz_quick_return_run (h : _rocsparse_handle) (dir : rocsparse_direction) (m n : Z)
    (descr : rocsparse_mat_descr) (A : pointer) (ld : Z) (counts total : pointer) (w : world T) :
  dir = rocsparse_direction_row \/ dir = rocsparse_direction_column ->
  0 <= m -> 0 <= n -> m <= ld -> m = 0 \/ n = 0 ->
  call (rocsparse_nnz_impl (Some h) dir m n descr A ld counts total) w
  = match total with
    | None => Some (rocsparse_status_success, w)
    | Some p =>
        match pointer_mode h with
        | rocsparse_pointer_mode_host =>
            Some (rocsparse_status_success, set_host_int (upd (host_int w) p 0) w)
        | rocsparse_pointer_mode_device =>
            match next_result w with
            | hipSuccess =>
                Some (rocsparse_status_success, set_dev_int (upd (dev_int w) p 0) (consume w))
            | e => Some (get_rocsparse_status_for_hip_status e, consume w)
            end
        end
    end.
Proof.
  intros Hdir Hm Hn Hld Hz.
  unfold rocsparse_nnz_impl.
  rewrite (valid_direction_test dir Hdir), (size_test m n ld Hm Hn Hld), (zero_test m n Hz).
  destruct total as [p|]; [|reflexivity].
  unfold rocsparse_get_pointer_mode, status_eqb. mred.
  destruct (pointer_mode h); [reflexivity|].
  unfold RETURN_IF_HIP_ERROR, hipMemsetAsync, runtime.
  destruct (next_result w); reflexivity.
Qed.

(** C2.  With a valid handle and direction, non-negative sizes and
    [ld >= m], a call with [m = 0] or [n = 0] returns before any pointer
    is tested for null, whatever [descr], [A] and [nnz_per_row_columns]
    are.  With a null total pointer it returns success and changes
    nothing.  In host pointer mode it stores 0 through the total pointer
    and returns success.  In device pointer mode it issues a memset of
    the total: when the runtime accepts it the total is 0 and the call
    returns success, otherwise the call returns the status translated
    from the runtime error and the total is not written. *)
Theorem nnz_quick_return (h : _rocsparse_handle) (dir : rocsparse_direction) (m n : Z)
    (descr : rocsparse_mat_descr) (A : pointer) (ld : Z) (counts total : pointer) (w : world T) :
  dir = rocsparse_direction_row \/ dir = rocsparse_direction_column ->
  0 <= m -> 0 <= n -> m <= ld -> m = 0 \/ n = 0 ->
  call (rocsparse_nnz_impl (Some h) dir m n descr A ld counts total) w
  = match total with
    | None => Some (rocsparse_status_success, w)
    | Some p =>
        match pointer_mode h with
        | rocsparse_pointer_mode_host =>
            Some (rocsparse_status_success, set_host_int (upd (host_int w) p 0) w)
        | rocsparse_pointer_mode_device =>
            match next_result w with
            | hipSuccess =>
                Some (rocsparse_status_success, set_dev_int (upd (dev_int w) p 0) (consume w))
            | e => Some (get_rocsparse_status_for_hip_status e, consume w)
            end
        end
    end.
Proof.
  apply nnz_quick_return_run.
Qed.

Lemma nnz_template_run (handle : rocsparse_handle) (dir : rocsparse_direction) (m n A ld out : Z)
    (w : world T) :
  0 < m -> 0 < n -> dir = rocsparse_direction_row \/ dir = rocsparse_direction_column ->
  rocsparse_nnz_template handle dir m n A ld out w
  = Some (inr rocsparse_status_success,
          set_dev_int (store_from (dev_int w) out (nnz_counts (dev_val w) dir m n A ld)) w).
Proof.
  intros Hm Hn Hdir. unfold rocsparse_nnz_template.
  replace (0 =? m) with false by (symmetry; apply Z.eqb_neq; lia).
  replace (0 =? n) with false by (symmetry; apply Z.eqb_neq; lia).
  replace ((dir =? rocsparse_direction_row) || (dir =? rocsparse_direction_column)) with true
    by (destruct Hdir as [-> | ->]; reflexivity).
  reflexivity.
Qed.

Lemma nnz_total_main (h : _rocsparse_handle) (dir : rocsparse_direction) (m n : Z)
    (descr : rocsparse_mat_descr) (A : pointer) (ld : Z) (out : pointer) (tp : Z)
    (w : world T) :
  (forall e, e <> hipSuccess ->
             get_rocsparse_status_for_hip_status e <> rocsparse_status_success) ->
  0 < m -> 0 < n ->
  let counts :=
    read_array
      (dev_int (state_after (rocsparse_nnz_template (Some h) dir m n (addr A) ld (addr out)) w))
      (addr out) (if dir =? rocsparse_direction_row then m else n) in
  post (rocsparse_nnz_impl (Some h) dir m n descr A ld out (Some tp)) w
       (fun s w' => s = rocsparse_status_success -> total_of h tp w' = int_sum counts)
       (fun s w' => s = rocsparse_status_success -> total_of h tp w' = int_sum counts).
Proof.
  intros Htable Hm Hn counts.
  unfold rocsparse_nnz_impl, nullptr.
  replace ((m =? 0) || (n =? 0)) with false
    by (symmetry; apply orb_false_intro; apply Z.eqb_neq; lia).
  destruct descr as [d|], A as [a|], out as [o|];
    cbn [is_null orb negb addr] in *; repeat wp_step; try discriminate.
  match goal with E : _ && _ = false |- _ => apply direction_cases in E; rename E into Hdir end.
  assert (Hrun := nnz_template_run (Some h) dir m n a ld o w Hm Hn Hdir).
  eapply post_value.
  { unfold invoke. rewrite Hrun. reflexivity. }
  subst counts. unfold state_after. rewrite Hrun. clear Hrun.
  cbv beta.
  repeat wp_step;
    try discriminate;
    try (intros E; apply Htable in E; [contradiction | assumption]);
    world_simpl; cbn [reduce_value] in *; world_simpl;
    intros _; unfold total_of, int_sum;
    match goal with E : is_device _ = _ |- _ => rewrite E end;
    world_simpl; rewrite ?copy_one, ?upd_eq; reflexivity.
Qed.

End Nnz.

(** ** Compression counting: [rocsparse_nnz_compress_template] *)

Section NnzCompress.
Context {T : Type} `{Scalar T} `{Runtime}.

Lemma nnz_compress_checks (h : _rocsparse_handle) (d : _rocsparse_mat_descr) (m : Z)
    (csr_val_A csr_row_ptr_A nnz_per_row nnz_C : pointer) (tol : T) (w : world T) :
  (m < 0 ->
   call (rocsparse_nnz_compress_template (Some h) m (Some d) csr_val_A csr_row_ptr_A
                                         nnz_per_row nnz_C tol) w
   = Some (rocsparse_status_invalid_size, w))
  /\ (0 <= m -> real_lt (std_real tol) (std_real scalar_zero) = true ->
      call (rocsparse_nnz_compress_template (Some h) m (Some d) csr_val_A csr_row_ptr_A
                                            nnz_per_row nnz_C tol) w
      = Some (rocsparse_status_invalid_value, w))
  /\ (m = 0 -> real_lt (std_real tol) (std_real scalar_zero) = false ->
      call (rocsparse_nnz_compress_template (Some h) m (Some d) csr_val_A csr_row_ptr_A
                                            nnz_per_row nnz_C tol) w
      = match nnz_C with
        | None => Some (rocsparse_status_success, w)
        | Some p =>
            match pointer_mode h with
            | rocsparse_pointer_mode_host =>
                Some (rocsparse_status_success, set_host_int (upd (host_int w) p 0) w)
            | rocsparse_pointer_mode_device =>
                match next_result w with
                | hipSuccess =>
                    Some (rocsparse_status_success,
                          set_dev_int (upd (dev_int w) p 0) (consume w))
                | e => Some (get_rocsparse_status_for_hip_status e, consume w)
                end
            end
        end)
  /\ (0 < m -> real_lt (std_real tol) (std_real scalar_zero) = false ->
      csr_val_A = nullptr \/ csr_row_ptr_A = nullptr \/ nnz_per_row = nullptr
      \/ nnz_C = nullptr ->
      call (rocsparse_nnz_compress_template (Some h) m (Some d) csr_val_A csr_row_ptr_A
                                            nnz_per_row nnz_C tol) w
      = Some (rocsparse_status_invalid_pointer, w)).
Proof.
  unfold rocsparse_nnz_compress_template.
  repeat split.
  - intros Hm. apply Z.ltb_lt in Hm. rewrite Hm. reflexivity.
  - intros Hm Htol. apply Z.ltb_ge in Hm. rewrite Hm, Htol. reflexivity.
  - intros -> Htol. rewrite Htol. change (0 <? 0) with false. change (0 =? 0) with true.
    destruct nnz_C as [p|]; [|reflexivity].
    mred. destruct (pointer_mode h); [reflexivity|].
    unfold RETURN_IF_HIP_ERROR, hipMemsetAsync, runtime.
    destruct (next_result w); reflexivity.
  - intros Hm Htol Hnull.
    assert (Hlt : (m <? 0) = false) by (apply Z.ltb_ge; lia).
    assert (Hz : (m =? 0) = false) by (apply Z.eqb_neq; lia).
    rewrite Hlt, Htol, Hz. unfold nullptr in Hnull.
    destruct csr_val_A; [|reflexivity].
    destruct csr_row_ptr_A; [|reflexivity].
    destruct nnz_per_row; [|reflexivity].
    destruct nnz_C; [|reflexivity].
    destruct Hnull as [E | [E | [E | E]]]; discriminate E.
Qed.

Lemma nnz_compress_order (handle : rocsparse_handle) (m : Z)
    (descr_A : rocsparse_mat_descr) (csr_val_A csr_row_ptr_A nnz_per_row nnz_C : pointer)
    (tol : T) (w : world T) :
  let result :=
    call (rocsparse_nnz_compress_template handle m descr_A csr_val_A csr_row_ptr_A
                                          nnz_per_row nnz_C tol) w in
  let negative_tolerance := real_lt (std_real tol) (std_real scalar_zero) in
  (handle = None -> result = Some (rocsparse_status_invalid_handle, w))
  /\ (handle <> None -> descr_A = None -> result = Some (rocsparse_status_invalid_pointer, w))
  /\ (handle <> None -> descr_A <> None -> m < 0 ->
      result = Some (rocsparse_status_invalid_size, w))
  /\ (handle <> None -> descr_A <> None -> 0 <= m -> negative_tolerance = true ->
      result = Some (rocsparse_status_invalid_value, w))
  /\ (forall h, handle = Some h -> descr_A <> None -> m = 0 -> negative_tolerance = false ->
      result
      = match nnz_C with
        | None => Some (rocsparse_status_success, w)
        | Some p =>
            match pointer_mode h with
            | rocsparse_pointer_mode_host =>
                Some (rocsparse_status_success, set_host_int (upd (host_int w) p 0) w)
            | rocsparse_pointer_mode_device =>
                match next_result w with
                | hipSuccess =>
                    Some (rocsparse_status_success,
                          set_dev_int (upd (dev_int w) p 0) (consume w))
                | e => Some (get_rocsparse_status_for_hip_status e, consume w)
                end
            end
        end)
  /\ (handle <> None -> descr_A <> None -> 0 < m -> negative_tolerance = false ->
      csr_val_A = nullptr \/ csr_row_ptr_A = nullptr \/ nnz_per_row = nullptr
      \/ nnz_C = nullptr ->
      result = Some (rocsparse_status_invalid_pointer, w)).
Proof.
  intros result negative_tolerance. subst result negative_tolerance.
  destruct handle as [h|].
  2:{ repeat split; try congruence. }
  destruct descr_A as [d|].
  2:{ repeat split; try congruence. }
  destruct (nnz_compress_checks h d m csr_val_A csr_row_ptr_A nnz_per_row nnz_C tol w)
    as [Hsize [Hvalue [Hzero Hnull]]].
  repeat split; try congruence; auto.
  intros h' E. injection E as <-. auto.
Qed.

(** C5.  The checks of [nnz_compress] in the order they are made, each
    with the status it returns and no change to the state: a null
    handle gives [invalid_handle]; then a null descriptor gives
    [invalid_pointer]; then [m < 0] gives [invalid_size]; then a
    tolerance with negative real part gives [invalid_value]; then
    [m = 0] returns early, before the remaining pointers are tested:
    with success and no write when the total pointer is null, with
    success and 0 stored through it in host pointer mode, and in device
    pointer mode with a memset of the total, whose failure, if the
    runtime reports one, is the status returned; then, for [m > 0], a
    null value, row-offset, per-row-output or total-output pointer gives
    [invalid_pointer]. *)
Theorem nnz_compress_validation_order (handle : rocsparse_handle) (m : Z)
    (descr_A : rocsparse_mat_descr) (csr_val_A csr_row_ptr_A nnz_per_row nnz_C : pointer)
    (tol : T) (w : world T) :
  let result :=
    call (rocsparse_nnz_compress_template handle m descr_A csr_val_A csr_row_ptr_A
                                          nnz_per_row nnz_C tol) w in
  let negative_tolerance := real_lt (std_real tol) (std_real scalar_zero) in
  (handle = None -> result = Some (rocsparse_status_invalid_handle, w))
  /\ (handle <> None -> descr_A = None -> result = Some (rocsparse_status_invalid_pointer, w))
  /\ (handle <> None -> descr_A <> None -> m < 0 ->
      result = Some (rocsparse_status_invalid_size, w))
  /\ (handle <> None -> descr_A <> None -> 0 <= m -> negative_tolerance = true ->
      result = Some (rocsparse_status_invalid_value, w))
  /\ (forall h, handle = Some h -> descr_A <> None -> m = 0 -> negative_tolerance = false ->
      result
      = match nnz_C with
        | None => Some (rocsparse_status_success, w)
        | Some p =>
            match pointer_mode h with
            | rocsparse_pointer_mode_host =>
                Some (rocsparse_status_success, set_host_int (upd (host_int w) p 0) w)
            | rocsparse_pointer_mode_device =>
                match next_result w with
                | hipSuccess =>
                    Some (rocsparse_status_success,
                          set_dev_int (upd (dev_int w) p 0) (consume w))
                | e => Some (get_rocsparse_status_for_hip_status e, consume w)
                end
            end
        end)
  /\ (handle <> None -> descr_A <> None -> 0 < m -> negative_tolerance = false ->
      csr_val_A = nullptr \/ csr_row_ptr_A = nullptr \/ nnz_per_row = nullptr
      \/ nnz_C = nullptr ->
      result = Some (rocsparse_status_invalid_pointer, w)).
Proof.
  apply nnz_compress_order.
Qed.

Lemma nnz_compress_statuses (P : rocsparse_status -> Prop) (h : _rocsparse_handle)
    (d : _rocsparse_mat_descr) (m : Z) (val rp out nc : Z) (tol : T) (w : world T) :
  0 < m -> real_lt (std_real tol) (std_real scalar_zero) = false ->
  P rocsparse_status_success ->
  (forall e, e <> hipSuccess -> P (get_rocsparse_status_for_hip_status e)) ->
  (wavefront_size h <> 32 -> wavefront_size h <> 64 -> P rocsparse_status_arch_mismatch) ->
  post (rocsparse_nnz_compress_template (Some h) m (Some d) (Some val) (Some rp) (Some out)
                                        (Some nc) tol) w
       (fun s _ => P s) (fun s _ => P s).
Proof.
  intros Hm Htol Hok Herr Harch.
  unfold rocsparse_nnz_compress_template.
  assert (Hlt : (m <? 0) = false) by (apply Z.ltb_ge; lia).
  assert (Hz : (m =? 0) = false) by (apply Z.eqb_neq; lia).
  rewrite Hlt, Htol, Hz.
  cbv beta iota zeta delta [is_null].
  repeat wp_line.
  wp_step; [| apply Herr; assumption].
  apply post_bind_mid with (Mid := fun _ _ => True).
  - (* the dispatch *)
    repeat wp_step; try exact I.
    apply Harch; apply Z.eqb_neq; assumption.
  - (* the reduction and the copy of the total *)
    cbv beta. intros _ w1 _.
    repeat wp_step; try exact Hok; apply Herr; assumption.
Qed.

(** C8.  For a call that passes argument validation with [m > 0]: if
    the copy of the last row pointer succeeds and the wavefront width is
    neither 32 nor 64, the call returns [arch_mismatch]; if that copy
    fails, the call returns the status translated from the runtime
    error, whatever the width; and with a width of 32 or 64 the call
    never returns [arch_mismatch], as long as the runtime table does not
    translate a failure into it. *)
Theorem nnz_compress_arch_mismatch (h : _rocsparse_handle) (d : _rocsparse_mat_descr) (m : Z)
    (val rp out nc : Z) (tol : T) (w : world T) :
  0 < m -> real_lt (std_real tol) (std_real scalar_zero) = false ->
  let result :=
    call (rocsparse_nnz_compress_template (Some h) m (Some d) (Some val) (Some rp) (Some out)
                                          (Some nc) tol) w in
  (next_result w = hipSuccess -> wavefront_size h <> 32 -> wavefront_size h <> 64 ->
   result = Some (rocsparse_status_arch_mismatch, consume w))
  /\ (next_result w <> hipSuccess ->
      result = Some (get_rocsparse_status_for_hip_status (next_result w), consume w))
  /\ (wavefront_size h = 32 \/ wavefront_size h = 64 ->
      (forall e, e <> hipSuccess ->
                 get_rocsparse_status_for_hip_status e <> rocsparse_status_arch_mismatch) ->
      exists s w', result = Some (s, w') /\ s <> rocsparse_status_arch_mismatch).
Proof.
  intros Hm Htol result. subst result.
  assert (Hlt : (m <? 0) = false) by (apply Z.ltb_ge; lia).
  assert (Hz : (m =? 0) = false) by (apply Z.eqb_neq; lia).
  repeat split.
  - intros Hnext H32 H64. apply Z.eqb_neq in H32, H64.
    unfold rocsparse_nnz_compress_template. rewrite Hlt, Htol, Hz. mred.
    unfold RETURN_IF_HIP_ERROR, hipMemcpy_to_local, runtime. rewrite Hnext, H32, H64.
    reflexivity.
  - intros Hnext.
    unfold rocsparse_nnz_compress_template. rewrite Hlt, Htol, Hz. mred.
    unfold RETURN_IF_HIP_ERROR, hipMemcpy_to_local, runtime.
    destruct (next_result w); [contradiction | reflexivity ..].
  - intros Hwf Htable. apply post_call.
    apply (nnz_compress_statuses (fun s => s <> rocsparse_status_arch_mismatch));
      try assumption; [discriminate | lia].
Qed.

(** When the call returns [invalid_value]. *)
Lemma nnz_compress_invalid_value (handle : rocsparse_handle) (m : Z)
    (descr_A : rocsparse_mat_descr) (csr_val_A csr_row_ptr_A nnz_per_row nnz_C : pointer)
    (tol : T) (w : world T) :
  (forall e, e <> hipSuccess ->
             get_rocsparse_status_for_hip_status e <> rocsparse_status_invalid_value) ->
  exists s w',
    call (rocsparse_nnz_compress_template handle m descr_A csr_val_A csr_row_ptr_A
                                          nnz_per_row nnz_C tol) w = Some (s, w')
    /\ (s = rocsparse_status_invalid_value
        <-> handle <> None /\ descr_A <> None /\ 0 <= m
            /\ real_lt (std_real tol) (std_real scalar_zero) = true).
Proof.
  intros Htable.
  destruct (nnz_compress_order handle m descr_A csr_val_A csr_row_ptr_A nnz_per_row
                                          nnz_C tol w)
    as [Hh [Hd [Hsize [Hvalue [Hzero Hnull]]]]].
  cbv zeta in *.
  destruct handle as [h|].
  2:{ rewrite Hh by reflexivity. do 2 eexists. split; [reflexivity|].
      split; [discriminate | intros [E _]; congruence]. }
  destruct descr_A as [d|].
  2:{ rewrite Hd by congruence. do 2 eexists. split; [reflexivity|].
      split; [discriminate | intros [_ [E _]]; congruence]. }
  destruct (Z_lt_le_dec m 0) as [Hm | Hm].
  { rewrite Hsize by (congruence || assumption). do 2 eexists. split; [reflexivity|].
    split; [discriminate | intros [_ [_ [E _]]]; lia]. }
  destruct (real_lt (std_real tol) (std_real scalar_zero)) eqn:Htol.
  { rewrite Hvalue by (congruence || assumption). do 2 eexists. split; [reflexivity|].
    split; [intros _; repeat split; congruence | reflexivity]. }
  destruct (Z.eq_dec m 0) as [Hm0 | Hm0].
  { rewrite (Hzero h) by (congruence || assumption).
    assert (Hno : forall s : rocsparse_status,
               s <> rocsparse_status_invalid_value ->
               s = rocsparse_status_invalid_value
               <-> Some h <> None /\ Some d <> None /\ 0 <= m /\ false = true).
    { intros s Hs. split; [contradiction | intros [_ [_ [_ E']]]; discriminate E']. }
    destruct nnz_C as [p|]; [destruct (pointer_mode h); [|destruct (next_result w) eqn:E] |];
      do 2 eexists; (split; [reflexivity|]); apply Hno;
      try discriminate; apply Htable; discriminate. }
  assert (Hpos : 0 < m) by lia.
  assert (Hnull' : csr_val_A = nullptr \/ csr_row_ptr_A = nullptr \/ nnz_per_row = nullptr
                   \/ nnz_C = nullptr ->
                   exists s w',
                     call (rocsparse_nnz_compress_template (Some h) m (Some d) csr_val_A
                             csr_row_ptr_A nnz_per_row nnz_C tol) w = Some (s, w')
                     /\ (s = rocsparse_status_invalid_value
                         <-> Some h <> None /\ Some d <> None /\ 0 <= m /\ false = true)).
  { intros Hn. exists rocsparse_status_invalid_pointer, w. split.
    - apply Hnull; [discriminate | discriminate | exact Hpos | reflexivity | exact Hn].
    - split; [discriminate | intros [_ [_ [_ E']]]; discriminate E']. }
  clear Hh Hd Hsize Hvalue Hzero Hnull.
  destruct csr_val_A as [val|]; [| apply Hnull'; auto].
  destruct csr_row_ptr_A as [rp|]; [| apply Hnull'; auto].
  destruct nnz_per_row as [out|]; [| apply Hnull'; auto].
  destruct nnz_C as [nc|]; [| apply Hnull'; auto 6].
  clear Hnull'.
  destruct (post_call _ w _
              (nnz_compress_statuses (fun s => s <> rocsparse_status_invalid_value)
                                     h d m val rp out nc tol w Hpos Htol
                                     ltac:(discriminate) Htable ltac:(discriminate)))
    as [s [w' [Hcall Hs]]].
  exists s, w'. split; [exact Hcall|].
  split; [contradiction | intros [_ [_ [_ E']]]; discriminate E'].
Qed.

(** C1.  For a call that passes argument validation with [m > 0],
    whose copy of the last row pointer succeeds and whose wavefront
    width is 32 or 64: exactly one kernel is launched, and its segment
    size is [code_segment_size] of the wavefront width and of the mean,
    the last row-pointer entry divided by [m] with truncation; that is
    the largest power of two not above the mean, kept between 2 and the
    wavefront width. *)
Theorem nnz_compress_segment_selection (h : _rocsparse_handle) (d : _rocsparse_mat_descr) (m : Z)
    (val rp out nc : Z) (tol : T) (w : world T) :
  0 < m -> real_lt (std_real tol) (std_real scalar_zero) = false ->
  next_result w = hipSuccess ->
  wavefront_size h = 32 \/ wavefront_size h = 64 ->
  let seg := code_segment_size (wavefront_size h) (Z.quot (dev_int w (rp + m)) m) in
  let segments_per_block := Z.quot 1024 seg in
  let grid_size := Z.quot (to_int (to_int (m + segments_per_block) - 1)) segments_per_block in
  exists s w',
    call (rocsparse_nnz_compress_template (Some h) m (Some d) (Some val) (Some rp) (Some out)
                                          (Some nc) tol) w = Some (s, w')
    /\ launched w'
       = launched w
         ++ [mk_launch (nnz_compress_kernel 1024 segments_per_block seg (wavefront_size h)
                                            m (base d) val rp out tol)
                       grid_size 1024].
Proof.
  intros Hm Htol Hnext Hwf seg spb grid.
  apply post_call.
  unfold rocsparse_nnz_compress_template.
  assert (Hlt : (m <? 0) = false) by (apply Z.ltb_ge; lia).
  assert (Hz : (m =? 0) = false) by (apply Z.eqb_neq; lia).
  rewrite Hlt, Htol, Hz.
  cbv beta iota zeta delta [is_null addr].
  assert (Hseg := code_segment_size_chain (wavefront_size h) (Z.quot (dev_int w (rp + m)) m) Hwf).
  fold seg in Hseg. subst spb grid. clearbody seg.
  repeat wp_line.
  wp_step; [| congruence].
  apply post_bind_mid with
    (Mid := fun _ w' =>
       launched w'
       = launched w
         ++ [mk_launch (nnz_compress_kernel 1024 (Z.quot 1024 seg) seg (wavefront_size h)
                                            m (base d) val rp out tol)
                       (Z.quot (to_int (to_int (m + Z.quot 1024 seg) - 1)) (Z.quot 1024 seg))
                       1024]).
  - (* the dispatch *)
    repeat wp_step; world_simpl;
      repeat match goal with
             | E : (_ <? _) = _ |- _ => rewrite E in Hseg; clear E
             | E : (wavefront_size h =? _) = true |- _ =>
                 apply Z.eqb_eq in E; rewrite E in *
             | E : (wavefront_size h =? _) = false |- _ => apply Z.eqb_neq in E
             end;
      rewrite ?orb_true_r in Hseg; cbn in Hseg;
      first [rewrite Hseg; reflexivity | exfalso; lia].
  - (* what follows the launch appends nothing *)
    cbv beta. intros _ w1 Hw1.
    repeat wp_step; world_simpl; split_matches; world_simpl; exact Hw1.
Qed.

Lemma nnz_compress_counts_length ints vals idx_base m val rp (tol : T) :
  length (nnz_compress_counts ints vals idx_base m val rp tol) = Z.to_nat m.
Proof. unfold nnz_compress_counts. rewrite length_map. apply range_length. Qed.

Lemma nnz_compress_counts_reduce ints vals idx_base m val rp (tol : T) :
  0 < m ->
  reduce_value None (nnz_compress_counts ints vals idx_base m val rp tol)
  = Some (int_sum (nnz_compress_counts ints vals idx_base m val rp tol)).
Proof.
  intros Hm. unfold nnz_compress_counts, range.
  destruct (Z.to_nat m) as [|k] eqn:E; [lia|].
  cbn [seq map]. apply reduce_value_noinit, to_int_idem.
Qed.

Lemma nnz_compress_kernel_counts B S G W m idx_base val rp out (tol : T) (w : world T) :
  0 <= m ->
  read_array (dev_int (run_kernel (nnz_compress_kernel B S G W m idx_base val rp out tol) w))
             out m
  = nnz_compress_counts (dev_int w) (dev_val w) idx_base m val rp tol.
Proof.
  intros Hm. cbn [run_kernel set_dev_int dev_int].
  apply read_store_from. rewrite nnz_compress_counts_length. lia.
Qed.

Lemma nnz_compress_total_main (h : _rocsparse_handle) (d : _rocsparse_mat_descr) (m : Z)
    (val rp out nc : Z) (tol : T) (w : world T) :
  (forall e, e <> hipSuccess ->
             get_rocsparse_status_for_hip_status e <> rocsparse_status_success) ->
  0 < m -> real_lt (std_real tol) (std_real scalar_zero) = false ->
  post (rocsparse_nnz_compress_template (Some h) m (Some d) (Some val) (Some rp) (Some out)
                                        (Some nc) tol) w
       (fun s w' => s = rocsparse_status_success ->
                    total_of h nc w'
                    = int_sum (nnz_compress_counts (dev_int w) (dev_val w) (base d) m val rp tol))
       (fun s w' => s = rocsparse_status_success ->
                    total_of h nc w'
                    = int_sum (nnz_compress_counts (dev_int w) (dev_val w) (base d) m val rp tol)).
Proof.
  intros Htable Hm Htol.
  unfold rocsparse_nnz_compress_template.
  assert (Hlt : (m <? 0) = false) by (apply Z.ltb_ge; lia).
  assert (Hz : (m =? 0) = false) by (apply Z.eqb_neq; lia).
  rewrite Hlt, Htol, Hz.
  cbv beta iota zeta delta [is_null addr nullptr].
  repeat wp_line.
  wp_step; [| intros E; apply Htable in E; [contradiction | assumption]].
  apply post_bind_mid with
    (Mid := fun _ w1 =>
       read_array (dev_int w1) out m
       = nnz_compress_counts (dev_int w) (dev_val w) (base d) m val rp tol).
  - repeat wp_step; world_simpl; try discriminate;
      apply read_store_from; rewrite nnz_compress_counts_length; lia.
  - cbv beta. intros _ w1 Hw1.
    repeat wp_step;
      try discriminate;
      try (intros E; apply Htable in E; [contradiction | assumption]);
      world_simpl;
      try (rewrite Hw1, nnz_compress_counts_reduce by exact Hm; world_simpl);
      try (match goal with
           | E1 : is_device _ = _, E2 : negb (is_device _) = _ |- _ =>
               rewrite E1 in E2; discriminate E2
           end);
      intros _; unfold total_of;
      match goal with E : is_device _ = _ |- _ => rewrite E end;
      world_simpl; rewrite ?copy_one, ?upd_eq; reflexivity.
Qed.

End NnzCompress.

(** ** Compressed to dense: [rocsparse_csx2dense_impl] *)

Section Csx2dense.
Context {T : Type} `{Scalar T} `{Runtime}.

Lemma zero_row_cell (dst pitch width j a : Z) (mem : Z -> T) :
  store_from mem (dst + j * pitch) (map (fun _ => scalar_zero) (range width)) a
  = if (dst + j * pitch <=? a) && (a <? dst + j * pitch + width) then scalar_zero else mem a.
Proof.
  rewrite store_from_spec, length_map, range_length.
  destruct (Z.leb_spec (dst + j * pitch) a); cbn [andb]; [|reflexivity].
  destruct (Z.ltb_spec a (dst + j * pitch + Z.of_nat (Z.to_nat width)));
    destruct (Z.ltb_spec a (dst + j * pitch + width)); try lia; [|reflexivity].
  apply nth_const. rewrite range_length. lia.
Qed.

Lemma zero_rows_keep_zero (dst pitch width : Z) (js : list Z) (mem : Z -> T) (a : Z) :
  mem a = scalar_zero -> zero_rows dst pitch width js mem a = scalar_zero.
Proof.
  revert mem. induction js as [|j js IH]; intros mem Hz; [exact Hz|].
  unfold zero_rows in *; cbn [fold_left]. apply IH. rewrite zero_row_cell.
  destruct ((dst + j * pitch <=? a) && (a <? dst + j * pitch + width)); auto.
Qed.

Lemma zero_rows_inside (dst pitch width : Z) (js : list Z) (mem : Z -> T) (i j : Z) :
  In j js -> 0 <= i < width -> zero_rows dst pitch width js mem (dst + j * pitch + i) = scalar_zero.
Proof.
  revert mem. induction js as [|j' js IH]; intros mem Hj Hi; [contradiction|].
  unfold zero_rows in *; cbn [fold_left]. destruct Hj as [-> | Hj].
  - apply (zero_rows_keep_zero dst pitch width js). rewrite zero_row_cell.
    destruct (Z.leb_spec (dst + j * pitch) (dst + j * pitch + i)); [|lia].
    destruct (Z.ltb_spec (dst + j * pitch + i) (dst + j * pitch + width)); [|lia].
    reflexivity.
  - apply IH; assumption.
Qed.

Lemma zero_rows_outside (dst pitch width : Z) (js : list Z) (mem : Z -> T) (a : Z) :
  (forall i j, In j js -> 0 <= i < width -> a <> dst + j * pitch + i) ->
  zero_rows dst pitch width js mem a = mem a.
Proof.
  revert mem. induction js as [|j js IH]; intros mem Hout; [reflexivity|].
  unfold zero_rows in *; cbn [fold_left]. rewrite IH.
  - rewrite zero_row_cell.
    destruct (Z.leb_spec (dst + j * pitch) a); cbn [andb]; [|reflexivity].
    destruct (Z.ltb_spec a (dst + j * pitch + width)); [|reflexivity].
    exfalso. apply (Hout (a - (dst + j * pitch)) j); [left; reflexivity | lia | lia].
  - intros i j' Hj' Hi. apply Hout; [right; exact Hj' | exact Hi].
Qed.

Lemma memset2D_inside (dst pitch width height stream i j : Z) (w : world T) :
  0 <= i < width -> 0 <= j < height ->
  dev_val (hipMemset2DAsync dst pitch width height stream w) (dst + j * pitch + i) = scalar_zero.
Proof.
  intros Hi Hj. cbn [hipMemset2DAsync set_dev_val dev_val].
  apply (zero_rows_inside dst pitch width (range height) (dev_val w) i j); [|exact Hi].
  apply range_In. exact Hj.
Qed.

Lemma memset2D_outside (dst pitch width height stream a : Z) (w : world T) :
  (forall i j, 0 <= i < width -> 0 <= j < height -> a <> dst + j * pitch + i) ->
  dev_val (hipMemset2DAsync dst pitch width height stream w) a = dev_val w a.
Proof.
  intros Hout. cbn [hipMemset2DAsync set_dev_val dev_val].
  apply (zero_rows_outside dst pitch width (range height) (dev_val w) a).
  intros i j Hj Hi. apply Hout; [exact Hi | apply range_In; exact Hj].
Qed.

Lemma cell_unique (ld o c o' c' : Z) :
  0 <= o < ld -> 0 <= o' < ld -> c * ld + o = c' * ld + o' -> o = o' /\ c = c'.
Proof.
  intros Ho Ho' E.
  assert (c = c') by nia. subst. lia.
Qed.

Lemma cell_in_region (ld n o c : Z) : 0 <= o < ld -> 0 <= c < n -> 0 <= c * ld + o < ld * n.
Proof. intros Ho Hc. nia. Qed.

(** C4.  For a CSR (direction row) or CSC (direction column) input of
    general type with [m > 0], [n > 0] and [lda >= m], whose stored
    indices lie in the matrix and whose value array lies outside the
    dense buffer, the call returns success and every entry (i, j) of the
    m-by-n dense region, at [A + i + j * lda], ends up as follows: it is
    zero when nothing is stored at (i, j), and it is the stored value
    when an entry is stored there (the last one, should the same
    coordinate be stored twice). *)
Theorem csx2dense_result (DIRA : rocsparse_direction) (h : _rocsparse_handle)
    (d : _rocsparse_mat_descr) (m n val ptr ind A lda : Z) (w : world T) :
  let count := if DIRA =? rocsparse_direction_row then m else n in
  let bound := if DIRA =? rocsparse_direction_row then n else m in
  let first_of := fun o => dev_int w (ptr + o) - base d in
  let end_of := fun o => dev_int w (ptr + o + 1) - base d in
  let index_of := fun k => dev_int w (ind + k) - base d in
  DIRA = rocsparse_direction_row \/ DIRA = rocsparse_direction_column ->
  type d = rocsparse_matrix_type_general ->
  0 < m -> 0 < n -> m <= lda ->
  (forall o k, 0 <= o < count -> first_of o <= k < end_of o -> 0 <= index_of k < bound) ->
  (forall o k, 0 <= o < count -> first_of o <= k < end_of o ->
               val + k < A \/ A + lda * n <= val + k) ->
  exists w',
    call (rocsparse_csx2dense_impl DIRA (Some h) m n (Some d) (Some val) (Some ptr) (Some ind)
                                   (Some A) lda) w
    = Some (rocsparse_status_success, w')
    /\ forall i j, 0 <= i < m -> 0 <= j < n ->
         let o := if DIRA =? rocsparse_direction_row then i else j in
         let c := if DIRA =? rocsparse_direction_row then j else i in
         ((forall k, first_of o <= k < end_of o -> index_of k <> c) ->
          dev_val w' (A + i + j * lda) = scalar_zero)
         /\ (forall k, first_of o <= k < end_of o -> index_of k = c ->
                       (forall k', k < k' < end_of o -> index_of k' <> c) ->
                       dev_val w' (A + i + j * lda) = dev_val w (val + k)).
Proof.
  intros count bound first_of end_of index_of Hdir Htype Hm Hn Hld Hidx Hsep.
  assert (Hsz : (m <? 0) || (n <? 0) || (lda <? m) = false) by (apply size_test; lia).
  assert (Hz : (m =? 0) || (n =? 0) = false)
    by (apply orb_false_intro; apply Z.eqb_neq; lia).
  assert (Hz' : (0 =? m) || (0 =? n) = false)
    by (apply orb_false_intro; apply Z.eqb_neq; lia).
  set (w0 := hipMemset2DAsync A lda m n (stream h) w).
  assert (Hzero : forall i j, 0 <= i < m -> 0 <= j < n ->
                              dev_val w0 (A + j * lda + i) = scalar_zero).
  { intros i j Hi Hj. apply memset2D_inside; assumption. }
  assert (Hkeep : forall o k, 0 <= o < count -> first_of o <= k < end_of o ->
                              dev_val w0 (val + k) = dev_val w (val + k)).
  { intros o k Ho Hk. apply memset2D_outside. intros i j Hi Hj E.
    pose proof (cell_in_region lda n i j ltac:(lia) Hj).
    destruct (Hsep o k Ho Hk); nia. }
  destruct Hdir as [-> | ->];
    [ change (rocsparse_direction_row =? rocsparse_direction_row) with true in *
    | change (rocsparse_direction_column =? rocsparse_direction_row) with false in * ];
    cbv iota in *.
  - (* row-oriented: csr2dense *)
    eexists. split.
    { unfold rocsparse_csx2dense_impl, rocsparse_csx2dense_template.
      rewrite Hsz, Hz, Hz'. mred. rewrite Htype. reflexivity. }
    intros i j Hi Hj. cbv zeta. cbn [dev_val add_launch run_kernel set_dev_val].
    fold w0. change (dev_int w0) with (dev_int w).
    unfold csr2dense_copies. cbn [addr].
    replace (A + i + j * lda) with (A + j * lda + i) by lia.
    set (cell := fun row col => A + col * lda + row).
    assert (Hinj : forall o c o' c', 0 <= o < m -> 0 <= c < n -> 0 <= o' < m -> 0 <= c' < n ->
                                     cell o c = cell o' c' -> o = o' /\ c = c').
    { unfold cell. intros o c o' c' Ho Hc Ho' Hc' E. apply (cell_unique lda o c o' c'); lia. }
    assert (Hsrc : forall o k o' c', 0 <= o < m -> first_of o <= k < end_of o ->
                                     0 <= o' < m -> 0 <= c' < n -> cell o' c' <> val + k).
    { unfold cell. intros o k o' c' Ho Hk Ho' Hc' E.
      pose proof (cell_in_region lda n o' c' ltac:(lia) Hc').
      destruct (Hsep o k Ho Hk); lia. }
    split.
    + intros Habs.
      rewrite <- (Hzero i j Hi Hj).
      exact (scatter_absent (dev_int w) (base d) m n val ptr ind cell Hinj Hidx
                            i j (dev_val w0) Hi Hj Habs).
    + intros k Hk <- Hlast.
      rewrite <- (Hkeep i k Hi Hk).
      exact (scatter_present (dev_int w) (base d) m n val ptr ind cell Hinj Hidx Hsrc
                             i k (dev_val w0) Hi Hk Hlast).
  - (* column-oriented: csc2dense *)
    eexists. split.
    { unfold rocsparse_csx2dense_impl, rocsparse_csx2dense_template.
      rewrite Hsz, Hz, Hz'. mred. rewrite Htype. reflexivity. }
    intros i j Hi Hj. cbv zeta. cbn [dev_val add_launch run_kernel set_dev_val].
    fold w0. change (dev_int w0) with (dev_int w).
    unfold csc2dense_copies. cbn [addr].
    replace (A + i + j * lda) with (A + j * lda + i) by lia.
    set (cell := fun col row => A + col * lda + row).
    assert (Hinj : forall o c o' c', 0 <= o < n -> 0 <= c < m -> 0 <= o' < n -> 0 <= c' < m ->
                                     cell o c = cell o' c' -> o = o' /\ c = c').
    { unfold cell. intros o c o' c' Ho Hc Ho' Hc' E.
      destruct (cell_unique lda c o c' o'); lia. }
    assert (Hsrc : forall o k o' c', 0 <= o < n -> first_of o <= k < end_of o ->
                                     0 <= o' < n -> 0 <= c' < m -> cell o' c' <> val + k).
    { unfold cell. intros o k o' c' Ho Hk Ho' Hc' E.
      pose proof (cell_in_region lda n c' o' ltac:(lia) Ho').
      destruct (Hsep o k Ho Hk); lia. }
    split.
    + intros Habs.
      rewrite <- (Hzero i j Hi Hj).
      exact (scatter_absent (dev_int w) (base d) n m val ptr ind cell Hinj Hidx
                            j i (dev_val w0) Hj Hi Habs).
    + intros k Hk <- Hlast.
      rewrite <- (Hkeep j k Hj Hk).
      exact (scatter_present (dev_int w) (base d) n m val ptr ind cell Hinj Hidx Hsrc
                             j k (dev_val w0) Hj Hk Hlast).
Qed.

(** C7, the failing input.  With a null descriptor the call has no
    defined behaviour, whatever the sizes: [descr->base] is evaluated
    for the bench log before the size check and the quick return. *)
Theorem csx2dense_null_descr_undefined (DIRA : rocsparse_direction) (h : _rocsparse_handle)
    (m n : Z) (csx_val csx_row_col_ptr csx_col_row_ind A : pointer) (lda : Z) (w : world T) :
  call (rocsparse_csx2dense_impl DIRA (Some h) m n None csx_val csx_row_col_ptr
                                 csx_col_row_ind A lda) w
  = None.
Proof. reflexivity. Qed.

(** With a descriptor the quick return is as the comment in the code
    says: success, nothing written, no other pointer looked at. *)
Lemma csx2dense_quick_return (DIRA : rocsparse_direction) (h : _rocsparse_handle)
    (d : _rocsparse_mat_descr) (m n : Z) (csx_val csx_row_col_ptr csx_col_row_ind A : pointer)
    (lda : Z) (w : world T) :
  0 <= m -> 0 <= n -> m <= lda -> m = 0 \/ n = 0 ->
  call (rocsparse_csx2dense_impl DIRA (Some h) m n (Some d) csx_val csx_row_col_ptr
                                 csx_col_row_ind A lda) w
  = Some (rocsparse_status_success, w).
Proof.
  intros Hm Hn Hld Hz. unfold rocsparse_csx2dense_impl.
  rewrite (size_test m n lda Hm Hn Hld), (zero_test m n Hz). reflexivity.
Qed.

End Csx2dense.

(** ** The permutation kernel of csr2csc *)

Section Csr2csc.
Context {T : Type} `{Scalar T} `{Runtime}.

(** C6.  A lane whose position [gid] is below [nnz] writes
    [out1[gid] = in1[map[gid]]] and [out2[gid] = in2[map[gid]]], the
    right-hand sides read before the lane runs, and writes no other
    cell; a lane with [gid >= nnz] leaves the state as it is. *)
Theorem csr2csc_permute_lane (BLOCKSIZE hipBlockIdx_x hipThreadIdx_x : Z)
    (nnz in1 in2 map out1 out2 : Z) (w : world T) :
  let gid := to_int (to_uint (hipBlockIdx_x * BLOCKSIZE + hipThreadIdx_x)) in
  let w' := csr2csc_permute_kernel BLOCKSIZE hipBlockIdx_x hipThreadIdx_x
                                   nnz in1 in2 map out1 out2 w in
  (gid < nnz ->
   dev_int w' (out1 + gid) = dev_int w (in1 + dev_int w (map + gid))
   /\ dev_val w' (out2 + gid) = dev_val w (in2 + dev_int w (map + gid))
   /\ (forall a, a <> out1 + gid -> dev_int w' a = dev_int w a)
   /\ (forall a, a <> out2 + gid -> dev_val w' a = dev_val w a)
   /\ host_int w' = host_int w)
  /\ (nnz <= gid -> w' = w).
Proof.
  intros gid w'. subst w'. unfold csr2csc_permute_kernel. fold gid.
  split.
  - intros Hg. replace (gid >=? nnz) with false by (rewrite Z.geb_leb; symmetry; apply Z.leb_gt; lia).
    cbn [dev_int dev_val host_int set_dev_int set_dev_val].
    repeat split.
    + apply upd_eq.
    + apply upd_eq.
    + intros a Ha. apply upd_neq. exact Ha.
    + intros a Ha. apply upd_neq. exact Ha.
  - intros Hg. replace (gid >=? nnz) with true by (rewrite Z.geb_leb; symmetry; apply Z.leb_le; lia).
    reflexivity.
Qed.

(** Every position is the [gid] of the lane the launch geometry gives
    it. *)
Lemma lane_of_position (BLOCKSIZE g : Z) :
  0 < BLOCKSIZE -> 0 <= g <= INT_MAX ->
  to_int (to_uint ((g / BLOCKSIZE) * BLOCKSIZE + g mod BLOCKSIZE)) = g.
Proof.
  intros Hb Hg. unfold INT_MAX in Hg.
  replace (g / BLOCKSIZE * BLOCKSIZE + g mod BLOCKSIZE) with g
    by (rewrite (Z.div_mod g BLOCKSIZE) at 1 by lia; lia).
  unfold to_uint. rewrite Z.mod_small by lia.
  apply to_int_small. unfold INT_MIN, INT_MAX. lia.
Qed.

End Csr2csc.

(** * The claims settled across element types *)

Section Totals.
Context {T : Type} `{Scalar T} `{Runtime}.

Hypothesis failures_are_reported :
  forall e, e <> hipSuccess ->
            get_rocsparse_status_for_hip_status e <> rocsparse_status_success.

Lemma nnz_success_valid (h : _rocsparse_handle) (dir : rocsparse_direction) (m n : Z)
    (descr : rocsparse_mat_descr) (A : pointer) (ld : Z) (out total : pointer) (w w' : world T) :
  call (rocsparse_nnz_impl (Some h) dir m n descr A ld out total) w
  = Some (rocsparse_status_success, w') ->
  (dir = rocsparse_direction_row \/ dir = rocsparse_direction_column)
  /\ 0 <= m /\ 0 <= n /\ m <= ld.
Proof.
  unfold rocsparse_nnz_impl.
  destruct (negb (rocsparse_direction_row =? dir) && negb (rocsparse_direction_column =? dir))
    eqn:Hdir; [discriminate|].
  destruct ((m <? 0) || (n <? 0) || (ld <? m)) eqn:Hsz; [discriminate|].
  intros _. split; [apply direction_cases; exact Hdir|].
  apply orb_false_elim in Hsz. destruct Hsz as [Hsz Hld].
  apply orb_false_elim in Hsz. destruct Hsz as [Hm Hn].
  apply Z.ltb_ge in Hm, Hn, Hld. lia.
Qed.

Lemma nnz_total (h : _rocsparse_handle) (dir : rocsparse_direction) (m n : Z)
    (descr : rocsparse_mat_descr) (A : pointer) (ld : Z) (out : pointer) (tp : Z)
    (w w' : world T) :
  call (rocsparse_nnz_impl (Some h) dir m n descr A ld out (Some tp)) w
  = Some (rocsparse_status_success, w') ->
  (0 < m -> 0 < n ->
   total_of h tp w'
   = int_sum (read_array
                (dev_int (state_after
                            (rocsparse_nnz_template (Some h) dir m n (addr A) ld (addr out)) w))
                (addr out) (if dir =? rocsparse_direction_row then m else n)))
  /\ (m = 0 \/ n = 0 ->
      total_of h tp w' = 0 /\ forall a, a <> tp -> dev_int w' a = dev_int w a).
Proof.
  intros Hcall. split.
  - intros Hm Hn.
    exact (post_call_inv _ w _ rocsparse_status_success w'
             (nnz_total_main h dir m n descr A ld out tp w failures_are_reported Hm Hn)
             Hcall eq_refl).
  - intros Hz.
    destruct (nnz_success_valid h dir m n descr A ld out (Some tp) w w' Hcall)
      as [Hdir [Hm [Hn Hld]]].
    rewrite (nnz_quick_return_run h dir m n descr A ld out (Some tp) w Hdir Hm Hn Hld Hz) in Hcall.
    unfold total_of.
    destruct (pointer_mode h); cbn [is_device] in *.
    + injection Hcall as <-. cbn [host_int dev_int set_host_int]. split; [apply upd_eq | auto].
    + destruct (next_result w) eqn:E;
        try (injection Hcall as Hs _; apply failures_are_reported in Hs;
             [contradiction | discriminate]).
      injection Hcall as <-. cbn [dev_int set_dev_int consume set_hip_results].
      split; [apply upd_eq | intros a Ha; apply upd_neq; exact Ha].
Qed.

Lemma nnz_compress_total (BLOCK_SIZE SEGMENTS_PER_BLOCK SEGMENT_SIZE WF_SIZE : Z)
    (h : _rocsparse_handle) (d : _rocsparse_mat_descr) (m : Z) (val rp out : pointer) (nc : Z)
    (tol : T) (w w' : world T) :
  call (rocsparse_nnz_compress_template (Some h) m (Some d) val rp out (Some nc) tol) w
  = Some (rocsparse_status_success, w') ->
  total_of h nc w'
  = int_sum (read_array
               (dev_int (run_kernel
                           (nnz_compress_kernel BLOCK_SIZE SEGMENTS_PER_BLOCK SEGMENT_SIZE WF_SIZE
                                                m (base d) (addr val) (addr rp) (addr out) tol)
                           w))
               (addr out) m).
Proof.
  intros Hcall.
  destruct (nnz_compress_order (Some h) m (Some d) val rp out (Some nc) tol w)
    as [_ [_ [Hsize [Hvalue [Hzero Hnull]]]]].
  cbv zeta in *.
  destruct (Z_lt_le_dec m 0) as [Hm | Hm].
  { rewrite Hsize in Hcall by first [discriminate | assumption | reflexivity]. discriminate. }
  destruct (real_lt (std_real tol) (std_real scalar_zero)) eqn:Htol.
  { rewrite Hvalue in Hcall by first [discriminate | assumption | reflexivity]. discriminate. }
  destruct (Z.eq_dec m 0) as [-> | Hm0].
  { rewrite (Hzero h) in Hcall by first [discriminate | assumption | reflexivity].
    change (read_array _ (addr out) 0) with (@nil Z). change (int_sum []) with 0.
    unfold total_of.
    destruct (pointer_mode h); cbn [is_device] in *.
    - injection Hcall as <-. apply upd_eq.
    - destruct (next_result w) eqn:E;
        try (injection Hcall as Hs _; apply failures_are_reported in Hs;
             [contradiction | discriminate]).
      injection Hcall as <-. apply upd_eq. }
  assert (Hpos : 0 < m) by lia.
  destruct val as [val|];
    [| rewrite Hnull in Hcall by first [discriminate | assumption | reflexivity | unfold nullptr; auto]; discriminate].
  destruct rp as [rp|];
    [| rewrite Hnull in Hcall by first [discriminate | assumption | reflexivity | unfold nullptr; auto]; discriminate].
  destruct out as [out|];
    [| rewrite Hnull in Hcall by first [discriminate | assumption | reflexivity | unfold nullptr; auto]; discriminate].
  clear Hsize Hvalue Hzero Hnull.
  cbn [addr]. rewrite nnz_compress_kernel_counts by lia.
  exact (post_call_inv _ w _ rocsparse_status_success w'
           (nnz_compress_total_main h d m val rp out nc tol w failures_are_reported Hpos Htol)
           Hcall eq_refl).
Qed.

End Totals.

(** C3.  Every successful call reports the sum of the counts it
    produced.  For the dense routine with [m > 0] and [n > 0] the total,
    read in the memory the pointer mode designates, is [int_sum] of the
    per-row (direction row) or per-column counts that the counting pass
    left in [nnz_per_row_columns]; when [m = 0] or [n = 0] the call
    writes no count at all and the total is 0.  For [nnz_compress] the
    total is [int_sum] of the per-row counts the kernel, whichever
    variant, leaves in [nnz_per_row].  Two successful calls on the same
    device data, whatever the pointer modes of their handles, report
    the same total.  [int_sum] is the sum in [rocsparse_int]; it is the
    exact sum whenever that fits.  A call counts as successful only if
    the runtime does not report failures as successes. *)
Theorem totals_are_sums {T : Type} `{Scalar T} `{Runtime} :
  (forall e, e <> hipSuccess ->
             get_rocsparse_status_for_hip_status e <> rocsparse_status_success) ->
  (forall h dir m n descr A ld out tp (w w' : world T),
      call (rocsparse_nnz_impl (Some h) dir m n descr A ld out (Some tp)) w
      = Some (rocsparse_status_success, w') ->
      (0 < m -> 0 < n ->
       total_of h tp w'
       = int_sum
           (read_array
              (dev_int (state_after
                          (rocsparse_nnz_template (Some h) dir m n (addr A) ld (addr out)) w))
              (addr out) (if dir =? rocsparse_direction_row then m else n)))
      /\ (m = 0 \/ n = 0 ->
          total_of h tp w' = 0 /\ forall a, a <> tp -> dev_int w' a = dev_int w a))
  /\ (forall BLOCK_SIZE SEGMENTS_PER_BLOCK SEGMENT_SIZE WF_SIZE
             h d m val rp out nc tol (w w' : world T),
         call (rocsparse_nnz_compress_template (Some h) m (Some d) val rp out (Some nc) tol) w
         = Some (rocsparse_status_success, w') ->
         total_of h nc w'
         = int_sum
             (read_array
                (dev_int (run_kernel
                            (nnz_compress_kernel BLOCK_SIZE SEGMENTS_PER_BLOCK SEGMENT_SIZE
                                                 WF_SIZE m (base d) (addr val) (addr rp)
                                                 (addr out) tol)
                            w))
                (addr out) m))
  /\ (forall h1 h2 dir m n descr A ld out tp1 tp2 (w1 w2 w1' w2' : world T),
         dev_int w1 = dev_int w2 -> dev_val w1 = dev_val w2 ->
         call (rocsparse_nnz_impl (Some h1) dir m n descr A ld out (Some tp1)) w1
         = Some (rocsparse_status_success, w1') ->
         call (rocsparse_nnz_impl (Some h2) dir m n descr A ld out (Some tp2)) w2
         = Some (rocsparse_status_success, w2') ->
         total_of h1 tp1 w1' = total_of h2 tp2 w2')
  /\ (forall h1 h2 d m val rp out nc1 nc2 tol (w1 w2 w1' w2' : world T),
         dev_int w1 = dev_int w2 -> dev_val w1 = dev_val w2 ->
         call (rocsparse_nnz_compress_template (Some h1) m (Some d) val rp out (Some nc1) tol) w1
         = Some (rocsparse_status_success, w1') ->
         call (rocsparse_nnz_compress_template (Some h2) m (Some d) val rp out (Some nc2) tol) w2
         = Some (rocsparse_status_success, w2') ->
         total_of h1 nc1 w1' = total_of h2 nc2 w2')
  /\ (forall counts, INT_MIN <= Zsum counts <= INT_MAX -> int_sum counts = Zsum counts).
Proof.
  intros Htable. repeat split.
  - apply (nnz_total Htable h dir m n descr A ld out tp w w'); assumption.
  - apply (nnz_total Htable h dir m n descr A ld out tp w w'); assumption.
  - apply (nnz_total Htable h dir m n descr A ld out tp w w'); assumption.
  - intros. apply nnz_compress_total; assumption.
  - intros h1 h2 dir m n descr A ld out tp1 tp2 w1 w2 w1' w2' Hd Hv H1 H2.
    destruct (nnz_success_valid h1 dir m n descr A ld out (Some tp1) w1 w1' H1)
      as [Hdir [Hm [Hn _]]].
    destruct (nnz_total Htable h1 dir m n descr A ld out tp1 w1 w1' H1) as [Hpos1 Hz1].
    destruct (nnz_total Htable h2 dir m n descr A ld out tp2 w2 w2' H2) as [Hpos2 Hz2].
    destruct (Z.eq_dec m 0) as [Em | Em];
      [rewrite (proj1 (Hz1 (or_introl Em))), (proj1 (Hz2 (or_introl Em))); reflexivity|].
    destruct (Z.eq_dec n 0) as [En | En];
      [rewrite (proj1 (Hz1 (or_intror En))), (proj1 (Hz2 (or_intror En))); reflexivity|].
    rewrite Hpos1, Hpos2 by lia.
    unfold state_after.
    rewrite !nnz_template_run by (lia || assumption).
    cbn [dev_int set_dev_int]. rewrite Hd, Hv. reflexivity.
  - intros h1 h2 d m val rp out nc1 nc2 tol w1 w2 w1' w2' Hd Hv H1 H2.
    rewrite (nnz_compress_total Htable 0 0 0 0 h1 d m val rp out nc1 tol w1 w1' H1).
    rewrite (nnz_compress_total Htable 0 0 0 0 h2 d m val rp out nc2 tol w2 w2' H2).
    cbn [run_kernel dev_int set_dev_int]. rewrite Hd, Hv. reflexivity.
  - apply int_sum_exact.
Qed.

(** C10.  [invalid_value] is returned exactly when the checks that
    precede the tolerance check pass (handle and descriptor not null,
    [m >= 0]) and the real part of the tolerance is below zero.  For a
    complex element type the imaginary part of the tolerance plays no
    role.  The status that the runtime table gives to a runtime failure
    is taken not to be [invalid_value]. *)
Theorem nnz_compress_tolerance_real_part `{Runtime} :
  (forall e, e <> hipSuccess ->
             get_rocsparse_status_for_hip_status e <> rocsparse_status_invalid_value) ->
  (forall (T : Type) (S : Scalar T) handle m descr_A csr_val_A csr_row_ptr_A nnz_per_row nnz_C
          (tol : T) (w : world T),
      exists s w',
        call (rocsparse_nnz_compress_template handle m descr_A csr_val_A csr_row_ptr_A
                                              nnz_per_row nnz_C tol) w = Some (s, w')
        /\ (s = rocsparse_status_invalid_value
            <-> handle <> None /\ descr_A <> None /\ 0 <= m
                /\ real_lt (std_real tol) (std_real scalar_zero) = true))
  /\ (forall (R : Type) (HR : Real R) handle m descr_A csr_val_A csr_row_ptr_A nnz_per_row nnz_C
             (tol : complex R) (w : world (complex R)),
         exists s w',
           call (rocsparse_nnz_compress_template handle m descr_A csr_val_A csr_row_ptr_A
                                                 nnz_per_row nnz_C tol) w = Some (s, w')
           /\ (s = rocsparse_status_invalid_value
               <-> handle <> None /\ descr_A <> None /\ 0 <= m /\ Rlt (re tol) Rzero = true)).
Proof.
  intros Htable. split.
  - intros T S handle m descr_A val rp out nc tol w.
    apply nnz_compress_invalid_value. exact Htable.
  - intros R HR handle m descr_A val rp out nc tol w.
    exact (nnz_compress_invalid_value handle m descr_A val rp out nc tol w Htable).
Qed.

(** * Runs on concrete data *)

Lemma library_failures_are_reported (e : hipError_t) :
  e <> hipSuccess -> get_rocsparse_status_for_hip_status e <> rocsparse_status_success.
Proof. destruct e; [contradiction | discriminate ..]. Defined.

Lemma library_failures_not_invalid_value (e : hipError_t) :
  e <> hipSuccess -> get_rocsparse_status_for_hip_status e <> rocsparse_status_invalid_value.
Proof. destruct e; discriminate. Defined.

Lemma library_failures_not_arch_mismatch (e : hipError_t) :
  e <> hipSuccess -> get_rocsparse_status_for_hip_status e <> rocsparse_status_arch_mismatch.
Proof. destruct e; discriminate. Defined.

(** C1, the selection at a concrete input: one row of five entries on
    a 64-wide wavefront is counted with segments of 4 lanes. *)
Lemma nnz_compress_segment_selection_witness :
  exists s w',
    call (rocsparse_nnz_compress_template (Some host_handle) 1 (Some general_descr)
            (Some 10) (Some 20) (Some 40) (Some 50) 0) (row5_world [])
    = Some (s, w')
    /\ launched w' = [mk_launch (nnz_compress_kernel 1024 256 4 64 1 0 10 20 40 0) 1 1024].
Proof.
  exact (nnz_compress_segment_selection host_handle general_descr 1 10 20 40 50 0 (row5_world [])
           ltac:(lia) eq_refl eq_refl (or_intror eq_refl)).
Defined.

(** C1 as stated fails: for a mean of 5 the smallest power of two not
    below the mean is 8, and the kernel launched has segments of 4. *)
Lemma nnz_compress_segment_not_smallest_above_mean :
  exists s w',
    call (rocsparse_nnz_compress_template (Some host_handle) 1 (Some general_descr)
            (Some 10) (Some 20) (Some 40) (Some 50) 0) (row5_world [])
    = Some (s, w')
    /\ launched w' = [mk_launch (nnz_compress_kernel 1024 256 4 64 1 0 10 20 40 0) 1 1024]
    /\ Z.quot (dev_int (row5_world []) (20 + 1)) 1 = 5
    /\ spec_segment_size 64 5 = 8.
Proof.
  do 2 eexists. split; [vm_compute; reflexivity|]. repeat split.
Qed.

(** C2, the quick return at a concrete input: zero rows, host pointer
    mode, every pointer but the total null. *)
Lemma nnz_quick_return_witness :
  call (rocsparse_nnz_impl (Some host_handle) rocsparse_direction_row 0 5 None None 0 None
          (Some 50)) (identity_world [])
  = Some (rocsparse_status_success,
          set_host_int (upd (host_int (identity_world [])) 50 0) (identity_world [])).
Proof.
  exact (nnz_quick_return host_handle rocsparse_direction_row 0 5 None None 0 None (Some 50)
           (identity_world []) (or_introl eq_refl) ltac:(lia) ltac:(lia) ltac:(lia)
           (or_introl eq_refl)).
Defined.

(** C2 as stated fails: in device pointer mode the runtime may reject
    the memset, and the call then returns that failure, not success. *)
Lemma nnz_quick_return_runtime_failure :
  call (rocsparse_nnz_impl (Some device_handle) rocsparse_direction_row 0 0 None None 0 None
          (Some 50)) (identity_world [hipErrorInvalidValue])
  = Some (rocsparse_status_internal_error, identity_world []).
Proof. reflexivity. Qed.

(** C5 as stated fails in the same way for [nnz_compress]. *)
Lemma nnz_compress_zero_rows_runtime_failure :
  call (rocsparse_nnz_compress_template (Some device_handle) 0 (Some general_descr)
          None None None (Some 50) 0) (identity_world [hipErrorInvalidValue])
  = Some (rocsparse_status_internal_error, identity_world []).
Proof. reflexivity. Qed.

(** C8, at a concrete input: a wavefront of 16 lanes is refused. *)
Lemma nnz_compress_arch_mismatch_witness :
  call (rocsparse_nnz_compress_template (Some narrow_handle) 1 (Some general_descr)
          (Some 10) (Some 20) (Some 40) (Some 50) 0) (row5_world [])
  = Some (rocsparse_status_arch_mismatch, consume (row5_world [])).
Proof.
  exact (proj1 (nnz_compress_arch_mismatch narrow_handle general_descr 1 10 20 40 50 0
                  (row5_world []) ltac:(lia) eq_refl)
               eq_refl ltac:(discriminate) ltac:(discriminate)).
Defined.

(** C8 as stated fails: the copy of the last row pointer comes before
    the wavefront test, and its failure is what the call returns. *)
Lemma nnz_compress_arch_mismatch_preempted :
  call (rocsparse_nnz_compress_template (Some narrow_handle) 1 (Some general_descr)
          (Some 10) (Some 20) (Some 40) (Some 50) 0) (row5_world [hipErrorInvalidValue])
  = Some (rocsparse_status_internal_error, row5_world []).
Proof. reflexivity. Qed.

(** C9, at a concrete input: direction 2 with zero rows. *)
Lemma nnz_invalid_direction_witness :
  call (rocsparse_nnz_impl (Some host_handle) 2 0 0 None None 0 None None) (identity_world [])
  = Some (rocsparse_status_invalid_value, identity_world []).
Proof.
  exact (nnz_invalid_direction host_handle 2 0 0 None None 0 None None (identity_world [])
           ltac:(discriminate) ltac:(discriminate)).
Defined.

(** C3, at concrete inputs: the dense matrix with rows (1 1) and (0 1)
    has row counts 2 and 1 and total 3; the CSR identity has total 2. *)
Lemma totals_are_sums_witness :
  (exists w',
     call (rocsparse_nnz_impl (Some host_handle) rocsparse_direction_row 2 2
             (Some general_descr) (Some 10) 2 (Some 40) (Some 50)) (dense_world [])
     = Some (rocsparse_status_success, w')
     /\ read_array (dev_int w') 40 2 = [2; 1]
     /\ total_of host_handle 50 w' = 3)
  /\ (exists w',
        call (rocsparse_nnz_compress_template (Some device_handle) 2 (Some general_descr)
                (Some 10) (Some 20) (Some 40) (Some 50) 0) (identity_world [])
        = Some (rocsparse_status_success, w')
        /\ total_of device_handle 50 w' = 2).
Proof.
  pose proof (totals_are_sums (T := Z) library_failures_are_reported) as [Hdense [Hcompress _]].
  split.
  - eexists. split; [reflexivity|]. split; [reflexivity|].
    etransitivity.
    + apply (proj1 (Hdense host_handle rocsparse_direction_row 2 2 (Some general_descr)
                      (Some 10) 2 (Some 40) 50 (dense_world []) _ eq_refl));
        reflexivity.
    + reflexivity.
  - eexists. split; [reflexivity|].
    etransitivity.
    + apply (Hcompress 1024 512 2 64 device_handle general_descr 2 (Some 10) (Some 20)
                       (Some 40) 50 0 (identity_world []) _ eq_refl).
    + reflexivity.
Defined.

(** C10, at a concrete input: a tolerance of [0 - 5i] is not refused. *)
Lemma nnz_compress_tolerance_real_part_witness :
  exists s w',
    call (rocsparse_nnz_compress_template (Some host_handle) 0 (Some general_descr)
            None None None (Some 50) (mk_complex 0 (-5))) complex_world
    = Some (s, w')
    /\ (s = rocsparse_status_invalid_value
        <-> Some host_handle <> None /\ Some general_descr <> None /\ 0 <= 0
            /\ (0 <? 0) = true).
Proof.
  exact (proj2 (nnz_compress_tolerance_real_part library_failures_not_invalid_value)
               Z Z_Real (Some host_handle) 0 (Some general_descr) None None None (Some 50)
               (mk_complex 0 (-5)) complex_world).
Defined.

(** Reading the cells of a concrete machine. *)
Ltac eval_cells :=
  repeat match goal with
         | H : context [dev_int ?w ?a] |- _ =>
             let v := eval vm_compute in (dev_int w a) in change (dev_int w a) with v in H
         | |- context [dev_int ?w ?a] =>
             let v := eval vm_compute in (dev_int w a) in change (dev_int w a) with v
         end;
  change (base general_descr) with 0 in *.

(** C4, the scenario of the spec: the 2-by-2 identity in CSR form with
    base 0, converted into a dense buffer with leading dimension 2,
    gives 1, 0, 0, 1. *)
Lemma csx2dense_identity :
  exists w',
    call (rocsparse_csx2dense_impl rocsparse_direction_row (Some host_handle) 2 2
            (Some general_descr) (Some 10) (Some 20) (Some 30) (Some 40) 2) (identity_world [])
    = Some (rocsparse_status_success, w')
    /\ read_array (dev_val w') 40 4 = [1; 0; 0; 1].
Proof.
  destruct (csx2dense_result rocsparse_direction_row host_handle general_descr 2 2 10 20 30 40 2
              (identity_world []))
    as [w' [Hcall Hcells]].
  - left; reflexivity.
  - reflexivity.
  - lia.
  - lia.
  - lia.
  - intros o k Ho Hk. cbv beta iota in *.
    change (rocsparse_direction_row =? rocsparse_direction_row) with true in *. cbv iota in *.
    assert (Eo : o = 0 \/ o = 1) by lia.
    destruct Eo as [-> | ->]; eval_cells;
      [assert (k = 0) by lia | assert (k = 1) by lia]; subst k; eval_cells; lia.
  - intros o k Ho Hk. cbv beta iota in *.
    change (rocsparse_direction_row =? rocsparse_direction_row) with true in *. cbv iota in *.
    assert (Eo : o = 0 \/ o = 1) by lia.
    destruct Eo as [-> | ->]; eval_cells; lia.
  - exists w'. split; [exact Hcall|].
    change (rocsparse_direction_row =? rocsparse_direction_row) with true in Hcells.
    cbv beta iota zeta in Hcells.
    assert (E00 : dev_val w' 40 = 1).
    { apply (proj2 (Hcells 0 0 ltac:(lia) ltac:(lia)) 0); eval_cells; [lia | lia |].
      intros k' Hk'. eval_cells. lia. }
    assert (E10 : dev_val w' 41 = 0).
    { apply (proj1 (Hcells 1 0 ltac:(lia) ltac:(lia))).
      intros k Hk. eval_cells. assert (k = 1) by lia. subst k. eval_cells. lia. }
    assert (E01 : dev_val w' 42 = 0).
    { apply (proj1 (Hcells 0 1 ltac:(lia) ltac:(lia))).
      intros k Hk. eval_cells. assert (k = 0) by lia. subst k. eval_cells. lia. }
    assert (E11 : dev_val w' 43 = 1).
    { apply (proj2 (Hcells 1 1 ltac:(lia) ltac:(lia)) 1); eval_cells; [lia | lia |].
      intros k' Hk'. eval_cells. lia. }
    change (read_array (dev_val w') 40 4)
      with [dev_val w' 40; dev_val w' 41; dev_val w' 42; dev_val w' 43].
    rewrite E00, E10, E01, E11. reflexivity.
Defined.

(** * Further properties *)

(** ** Launches of the permutation kernel *)

Section Launch.
Context {T : Type} `{Scalar T} `{Runtime}.
Variables (BLOCKSIZE nnz in1 in2 map out1 out2 : Z).
Variable w : world T.

(** What the kernel reads is apart from what it writes. *)
Hypothesis map_apart :
  forall g g', 0 <= g < nnz -> 0 <= g' < nnz -> map + g <> out1 + g'.
Hypothesis in1_apart :
  forall g g', 0 <= g < nnz -> 0 <= g' < nnz -> in1 + dev_int w (map + g) <> out1 + g'.
Hypothesis in2_apart :
  forall g g', 0 <= g < nnz -> 0 <= g' < nnz -> in2 + dev_int w (map + g) <> out2 + g'.

Let gather1 (g : Z) : Z := dev_int w (in1 + dev_int w (map + g)).
Let gather2 (g : Z) : T := dev_val w (in2 + dev_int w (map + g)).

Lemma run_lanes_app (l1 l2 : list (Z * Z)) :
  run_lanes BLOCKSIZE (l1 ++ l2) nnz in1 in2 map out1 out2 w
  = run_lanes BLOCKSIZE l2 nnz in1 in2 map out1 out2
              (run_lanes BLOCKSIZE l1 nnz in1 in2 map out1 out2 w).
Proof. unfold run_lanes. apply fold_left_app. Qed.

(** The state after any sequence of lanes none of which has wrapped to
    a negative position. *)
Lemma run_lanes_state (lanes : list (Z * Z)) :
  (forall lane, In lane lanes -> 0 <= lane_gid BLOCKSIZE lane) ->
  let w' := run_lanes BLOCKSIZE lanes nnz in1 in2 map out1 out2 w in
  (forall lane, In lane lanes -> lane_gid BLOCKSIZE lane < nnz ->
     dev_int w' (out1 + lane_gid BLOCKSIZE lane) = gather1 (lane_gid BLOCKSIZE lane)
     /\ dev_val w' (out2 + lane_gid BLOCKSIZE lane) = gather2 (lane_gid BLOCKSIZE lane))
  /\ (forall a,
        (forall lane, In lane lanes -> lane_gid BLOCKSIZE lane < nnz ->
                      a <> out1 + lane_gid BLOCKSIZE lane) ->
        dev_int w' a = dev_int w a)
  /\ (forall a,
        (forall lane, In lane lanes -> lane_gid BLOCKSIZE lane < nnz ->
                      a <> out2 + lane_gid BLOCKSIZE lane) ->
        dev_val w' a = dev_val w a)
  /\ host_int w' = host_int w.
Proof.
  induction lanes as [|x l IH] using rev_ind; intros Hpos w'.
  - subst w'. cbn. split; [intros lane []|]. repeat split.
  - assert (Hpos_l : forall lane, In lane l -> 0 <= lane_gid BLOCKSIZE lane).
    { intros lane Hl. apply Hpos. apply in_or_app. left. exact Hl. }
    specialize (IH Hpos_l). cbv zeta in IH.
    destruct IH as [IHout [IHint [IHval IHhost]]].
    subst w'. rewrite run_lanes_app.
    set (wl := run_lanes BLOCKSIZE l nnz in1 in2 map out1 out2 w) in *.
    change (run_lanes BLOCKSIZE [x] nnz in1 in2 map out1 out2 wl)
      with (csr2csc_permute_kernel BLOCKSIZE (fst x) (snd x) nnz in1 in2 map out1 out2 wl).
    assert (Hx : 0 <= lane_gid BLOCKSIZE x) by (apply Hpos, in_or_app; right; left; reflexivity).
    unfold csr2csc_permute_kernel. fold (lane_gid BLOCKSIZE x).
    set (gx := lane_gid BLOCKSIZE x) in *.
    destruct (Z_lt_le_dec gx nnz) as [Hlt | Hge].
    + replace (gx >=? nnz) with false by (rewrite Z.geb_leb; symmetry; apply Z.leb_gt; lia).
      cbn [dev_int dev_val host_int set_dev_int set_dev_val].
      assert (Emap : dev_int wl (map + gx) = dev_int w (map + gx)).
      { apply IHint. intros lane Hl Hlane. apply map_apart; [lia|]. split; [auto | lia]. }
      assert (Ein1 : dev_int wl (in1 + dev_int w (map + gx)) = gather1 gx).
      { apply IHint. intros lane Hl Hlane. apply in1_apart; [lia|]. split; [auto | lia]. }
      assert (Ein2 : dev_val wl (in2 + dev_int w (map + gx)) = gather2 gx).
      { apply IHval. intros lane Hl Hlane. apply in2_apart; [lia|]. split; [auto | lia]. }
      rewrite Emap, Ein1, Ein2.
      split; [|split; [|split]].
      * intros lane Hl Hlane.
        destruct (Z.eq_dec (lane_gid BLOCKSIZE lane) gx) as [-> | Hne];
          [split; apply upd_eq|].
        rewrite !upd_neq by lia.
        apply in_app_or in Hl. destruct Hl as [Hl | [<- | []]]; [|contradiction].
        apply IHout; assumption.
      * intros a Ha. rewrite upd_neq.
        -- apply IHint. intros lane Hl. apply Ha, in_or_app. left. exact Hl.
        -- apply (Ha x); [apply in_or_app; right; left; reflexivity | exact Hlt].
      * intros a Ha. rewrite upd_neq.
        -- apply IHval. intros lane Hl. apply Ha, in_or_app. left. exact Hl.
        -- apply (Ha x); [apply in_or_app; right; left; reflexivity | exact Hlt].
      * exact IHhost.
    + replace (gx >=? nnz) with true by (rewrite Z.geb_leb; symmetry; apply Z.leb_le; lia).
      split; [|split; [|split]].
      * intros lane Hl Hlane.
        apply in_app_or in Hl. destruct Hl as [Hl | [<- | []]]; [|fold gx in Hlane; lia].
        apply IHout; assumption.
      * intros a Ha. apply IHint. intros lane Hl. apply Ha, in_or_app. left. exact Hl.
      * intros a Ha. apply IHval. intros lane Hl. apply Ha, in_or_app. left. exact Hl.
      * exact IHhost.
Qed.


Lemma grid_lanes_In (numBlocks b t : Z) :
  In (b, t) (grid_lanes numBlocks BLOCKSIZE) <-> 0 <= b < numBlocks /\ 0 <= t < BLOCKSIZE.
Proof.
  unfold grid_lanes. rewrite in_flat_map. split.
  - intros [b' [Hb Ht]]. apply in_map_iff in Ht. destruct Ht as [t' [E Ht]].
    inversion E; subst. apply range_In in Hb, Ht. split; assumption.
  - intros [Hb Ht]. exists b. split; [apply range_In; exact Hb|].
    apply in_map_iff. exists t. split; [reflexivity | apply range_In; exact Ht].
Qed.

(** In a grid of at most 2^31 lanes every lane computes the position
    block * BLOCKSIZE + thread, without wrapping. *)
Lemma grid_lane_gid (numBlocks : Z) (lane : Z * Z) :
  numBlocks * BLOCKSIZE <= 2 ^ 31 ->
  In lane (grid_lanes numBlocks BLOCKSIZE) ->
  lane_gid BLOCKSIZE lane = fst lane * BLOCKSIZE + snd lane
  /\ 0 <= lane_gid BLOCKSIZE lane < numBlocks * BLOCKSIZE.
Proof.
  intros Hsize Hin. destruct lane as [b t]. apply grid_lanes_In in Hin.
  cbn [fst snd]. unfold lane_gid. cbn [fst snd].
  assert (Hb : 0 <= b * BLOCKSIZE + t < numBlocks * BLOCKSIZE) by nia.
  unfold to_uint. rewrite Z.mod_small by lia.
  rewrite to_int_small by (unfold INT_MIN, INT_MAX; lia). lia.
Qed.

(** The grid reaches every position below its size. *)
Lemma grid_covers (numBlocks g : Z) :
  0 < BLOCKSIZE -> numBlocks * BLOCKSIZE <= 2 ^ 31 -> 0 <= g < numBlocks * BLOCKSIZE ->
  exists lane, In lane (grid_lanes numBlocks BLOCKSIZE) /\ lane_gid BLOCKSIZE lane = g.
Proof.
  intros Hb Hsize Hg. exists (g / BLOCKSIZE, g mod BLOCKSIZE). split.
  - apply grid_lanes_In. split.
    + split; [apply Z.div_pos; lia|]. apply Z.div_lt_upper_bound; lia.
    + apply Z.mod_pos_bound. exact Hb.
  - unfold lane_gid. cbn [fst snd]. apply lane_of_position; [exact Hb|].
    unfold INT_MAX. lia.
Qed.

(** The state after the lanes of a whole grid have run, in any order. *)
Lemma run_grid_state (numBlocks : Z) (lanes : list (Z * Z)) :
  0 < BLOCKSIZE -> numBlocks * BLOCKSIZE <= 2 ^ 31 -> nnz <= numBlocks * BLOCKSIZE ->
  Permutation (grid_lanes numBlocks BLOCKSIZE) lanes ->
  let w' := run_lanes BLOCKSIZE lanes nnz in1 in2 map out1 out2 w in
  read_array (dev_int w') out1 nnz = List.map gather1 (range nnz)
  /\ read_array (dev_val w') out2 nnz = List.map gather2 (range nnz)
  /\ (forall a, ~ out1 <= a < out1 + nnz -> dev_int w' a = dev_int w a)
  /\ (forall a, ~ out2 <= a < out2 + nnz -> dev_val w' a = dev_val w a)
  /\ host_int w' = host_int w.
Proof.
  intros Hb Hsize Hnnz Hperm w'.
  assert (Hin : forall lane, In lane lanes -> In lane (grid_lanes numBlocks BLOCKSIZE)).
  { intros lane Hl. apply (Permutation_in lane (Permutation_sym Hperm) Hl). }
  assert (Hpos : forall lane, In lane lanes -> 0 <= lane_gid BLOCKSIZE lane).
  { intros lane Hl. apply (grid_lane_gid numBlocks lane Hsize (Hin lane Hl)). }
  destruct (run_lanes_state lanes Hpos) as [Hout [Hint [Hval Hhost]]].
  fold w' in Hout, Hint, Hval, Hhost.
  assert (Hcov : forall g, 0 <= g < nnz ->
            exists lane, In lane lanes /\ lane_gid BLOCKSIZE lane = g).
  { intros g Hg. destruct (grid_covers numBlocks g Hb Hsize) as [lane [Hl E]]; [lia|].
    exists lane. split; [apply (Permutation_in lane Hperm Hl) | exact E]. }
  repeat split.
  - unfold read_array. apply map_ext_in. intros g Hg. apply range_In in Hg.
    destruct (Hcov g Hg) as [lane [Hl E]]. rewrite <- E. apply Hout; [exact Hl | lia].
  - unfold read_array. apply map_ext_in. intros g Hg. apply range_In in Hg.
    destruct (Hcov g Hg) as [lane [Hl E]]. rewrite <- E. apply Hout; [exact Hl | lia].
  - intros a Ha. apply Hint. intros lane Hl Hlt. specialize (Hpos lane Hl). lia.
  - intros a Ha. apply Hval. intros lane Hl Hlt. specialize (Hpos lane Hl). lia.
  - exact Hhost.
Qed.

End Launch.

Lemma combine_map {A B C : Type} (f : A -> B) (g : A -> C) (l : list A) :
  combine (List.map f l) (List.map g l) = List.map (fun x => (f x, g x)) l.
Proof. induction l as [|x l IH]; [reflexivity|]. cbn. rewrite IH. reflexivity. Qed.

(** X1.  A launch of [csr2csc_permute_kernel] over a grid of numBlocks
    blocks of BLOCKSIZE threads that covers nnz positions, its lanes
    run in any order, leaves out1[g] = in1[map[g]] and
    out2[g] = in2[map[g]] for every g below nnz and changes no other
    cell, provided the cells read lie apart from the cells written. *)
Theorem permute_launch_gathers {T : Type}
    (BLOCKSIZE numBlocks nnz in1 in2 map out1 out2 : Z) (w : world T)
    (lanes : list (Z * Z)) :
  0 < BLOCKSIZE -> numBlocks * BLOCKSIZE <= 2 ^ 31 -> nnz <= numBlocks * BLOCKSIZE ->
  Permutation (grid_lanes numBlocks BLOCKSIZE) lanes ->
  (forall g g', 0 <= g < nnz -> 0 <= g' < nnz -> map + g <> out1 + g') ->
  (forall g g', 0 <= g < nnz -> 0 <= g' < nnz -> in1 + dev_int w (map + g) <> out1 + g') ->
  (forall g g', 0 <= g < nnz -> 0 <= g' < nnz -> in2 + dev_int w (map + g) <> out2 + g') ->
  let w' := run_lanes BLOCKSIZE lanes nnz in1 in2 map out1 out2 w in
  read_array (dev_int w') out1 nnz
  = List.map (fun g => dev_int w (in1 + dev_int w (map + g))) (range nnz)
  /\ read_array (dev_val w') out2 nnz
     = List.map (fun g => dev_val w (in2 + dev_int w (map + g))) (range nnz)
  /\ (forall a, ~ out1 <= a < out1 + nnz -> dev_int w' a = dev_int w a)
  /\ (forall a, ~ out2 <= a < out2 + nnz -> dev_val w' a = dev_val w a)
  /\ host_int w' = host_int w.
Proof.
  intros Hb Hsize Hnnz Hperm Hmap Hin1 Hin2.
  exact (run_grid_state BLOCKSIZE nnz in1 in2 map out1 out2 w Hmap Hin1 Hin2
                        numBlocks lanes Hb Hsize Hnnz Hperm).
Qed.

(** X2.  When [map] holds a permutation of the positions 0 .. nnz-1 and
    the input arrays lie apart from the output arrays, a covering
    launch of [csr2csc_permute_kernel] rearranges the entries and loses
    none: the pairs (out1[g], out2[g]) are a permutation of the pairs
    (in1[i], in2[i]). *)
Theorem permute_launch_keeps_entries {T : Type}
    (BLOCKSIZE numBlocks nnz in1 in2 map out1 out2 : Z) (w : world T)
    (lanes : list (Z * Z)) :
  0 < BLOCKSIZE -> numBlocks * BLOCKSIZE <= 2 ^ 31 -> nnz <= numBlocks * BLOCKSIZE ->
  Permutation (grid_lanes numBlocks BLOCKSIZE) lanes ->
  Permutation (read_array (dev_int w) map nnz) (range nnz) ->
  (forall i j, 0 <= i < nnz -> 0 <= j < nnz -> map + i <> out1 + j) ->
  (forall i j, 0 <= i < nnz -> 0 <= j < nnz -> in1 + i <> out1 + j) ->
  (forall i j, 0 <= i < nnz -> 0 <= j < nnz -> in2 + i <> out2 + j) ->
  let w' := run_lanes BLOCKSIZE lanes nnz in1 in2 map out1 out2 w in
  Permutation (combine (read_array (dev_int w') out1 nnz) (read_array (dev_val w') out2 nnz))
              (combine (read_array (dev_int w) in1 nnz) (read_array (dev_val w) in2 nnz)).
Proof.
  intros Hb Hsize Hnnz Hperm Hmapperm Hmap Hin1 Hin2 w'.
  assert (Hrange : forall g, 0 <= g < nnz -> 0 <= dev_int w (map + g) < nnz).
  { intros g Hg. apply range_In. apply (Permutation_in _ Hmapperm).
    unfold read_array. apply in_map_iff. exists g. split; [reflexivity|].
    apply range_In. exact Hg. }
  destruct (run_grid_state BLOCKSIZE nnz in1 in2 map out1 out2 w Hmap
              (fun g g' Hg Hg' => Hin1 _ _ (Hrange g Hg) Hg')
              (fun g g' Hg Hg' => Hin2 _ _ (Hrange g Hg) Hg')
              numBlocks lanes Hb Hsize Hnnz Hperm) as [E1 [E2 _]].
  fold w' in E1, E2. rewrite E1, E2.
  unfold read_array at 1 2. rewrite !combine_map.
  change (List.map (fun x => (dev_int w (in1 + dev_int w (map + x)),
                              dev_val w (in2 + dev_int w (map + x)))) (range nnz))
    with (List.map (fun x => (fun i => (dev_int w (in1 + i), dev_val w (in2 + i)))
                               ((fun g => dev_int w (map + g)) x)) (range nnz)).
  rewrite <- (List.map_map (fun g => dev_int w (map + g))
                (fun i => (dev_int w (in1 + i), dev_val w (in2 + i)))).
  apply Permutation_map. exact Hmapperm.
Qed.

Lemma permute_world_map (g : Z) :
  0 <= g < 3 -> 0 <= dev_int permute_world (20 + g) < 3.
Proof.
  intros Hg. assert (E : g = 0 \/ g = 1 \/ g = 2) by lia.
  destruct E as [-> | [-> | ->]]; vm_compute; split; congruence.
Defined.

Lemma permute_launch_gathers_witness :
  read_array (dev_int (run_lanes 2 (rev (grid_lanes 2 2)) 3 10 30 20 40 50 permute_world)) 40 3
  = [8; 5; 6]
  /\ read_array (dev_val (run_lanes 2 (rev (grid_lanes 2 2)) 3 10 30 20 40 50 permute_world)) 50 3
     = [80; 50; 60].
Proof.
  assert (Hw : let w' := run_lanes 2 (rev (grid_lanes 2 2)) 3 10 30 20 40 50 permute_world in
               read_array (dev_int w') 40 3
               = List.map (fun g => dev_int permute_world (10 + dev_int permute_world (20 + g)))
                          (range 3)
               /\ read_array (dev_val w') 50 3
                  = List.map (fun g => dev_val permute_world (30 + dev_int permute_world (20 + g)))
                             (range 3)
               /\ (forall a, ~ 40 <= a < 40 + 3 ->
                             dev_int w' a = dev_int permute_world a)
               /\ (forall a, ~ 50 <= a < 50 + 3 ->
                             dev_val w' a = dev_val permute_world a)
               /\ host_int w' = host_int permute_world).
  { apply (permute_launch_gathers 2 2 3 10 30 20 40 50 permute_world (rev (grid_lanes 2 2))).
    - lia.
    - lia.
    - lia.
    - apply Permutation_rev.
    - intros g g' Hg Hg'. lia.
    - intros g g' Hg Hg'. pose proof (permute_world_map g Hg). lia.
    - intros g g' Hg Hg'. pose proof (permute_world_map g Hg). lia. }
  cbv zeta in Hw. destruct Hw as [E1 [E2 _]]. split.
  - rewrite E1. reflexivity.
  - rewrite E2. reflexivity.
Defined.

Lemma permute_launch_keeps_entries_witness :
  Permutation
    (combine (read_array (dev_int (run_lanes 2 (grid_lanes 2 2) 3 10 30 20 40 50 permute_world)) 40 3)
             (read_array (dev_val (run_lanes 2 (grid_lanes 2 2) 3 10 30 20 40 50 permute_world)) 50 3))
    (combine (read_array (dev_int permute_world) 10 3) (read_array (dev_val permute_world) 30 3)).
Proof.
  apply (permute_launch_keeps_entries 2 2 3 10 30 20 40 50 permute_world (grid_lanes 2 2)).
  - lia.
  - lia.
  - lia.
  - apply Permutation_refl.
  - change (Permutation [2; 0; 1] [0; 1; 2]).
    apply (perm_trans (l' := [0; 2; 1])); [apply perm_swap | apply perm_skip, perm_swap].
  - intros i j Hi Hj. lia.
  - intros i j Hi Hj. lia.
  - intros i j Hi Hj. lia.
Defined.

(** ** Argument checks of the host routines *)

Section Checks.
Context {T : Type} `{Scalar T} `{Runtime}.

Lemma nonzero_test (m n : Z) : 0 < m -> 0 < n -> (m =? 0) || (n =? 0) = false.
Proof.
  intros Hm Hn. apply orb_false_intro; apply Z.eqb_neq; lia.
Qed.

Lemma bad_size_test (m n ld : Z) :
  m < 0 \/ n < 0 \/ ld < m -> (m <? 0) || (n <? 0) || (ld <? m) = true.
Proof.
  intros [Hm | [Hn | Hld]].
  - apply Z.ltb_lt in Hm. rewrite Hm. reflexivity.
  - apply Z.ltb_lt in Hn. rewrite Hn. apply orb_true_iff. left. apply orb_true_r.
  - apply Z.ltb_lt in Hld. rewrite Hld. apply orb_true_r.
Qed.

(** X3.  The checks of [rocsparse_nnz_impl] after the direction, in the
    order of the code, each returning with the state untouched: a null
    handle is [invalid_handle] whatever else is passed; a negative size
    or [ld < m] is [invalid_size] even with null pointers; with both
    sizes positive a null descriptor, count array, matrix or total
    pointer is [invalid_pointer]; with every pointer present a matrix
    type other than general is [not_implemented]. *)
Theorem nnz_checks_in_order (handle : rocsparse_handle) (dir : rocsparse_direction) (m n : Z)
    (descr : rocsparse_mat_descr) (A : pointer) (ld : Z) (counts total : pointer)
    (w : world T) :
  let result := call (rocsparse_nnz_impl handle dir m n descr A ld counts total) w in
  let valid := dir = rocsparse_direction_row \/ dir = rocsparse_direction_column in
  (handle = None -> result = Some (rocsparse_status_invalid_handle, w))
  /\ (handle <> None -> valid -> m < 0 \/ n < 0 \/ ld < m ->
      result = Some (rocsparse_status_invalid_size, w))
  /\ (handle <> None -> valid -> 0 < m -> 0 < n -> m <= ld ->
      descr = None \/ counts = None \/ A = None \/ total = None ->
      result = Some (rocsparse_status_invalid_pointer, w))
  /\ (forall d, handle <> None -> valid -> 0 < m -> 0 < n -> m <= ld ->
      descr = Some d -> counts <> None -> A <> None -> total <> None ->
      type d <> rocsparse_matrix_type_general ->
      result = Some (rocsparse_status_not_implemented, w)).
Proof.
  cbv zeta. repeat split.
  - intros ->. reflexivity.
  - intros Hh Hdir Hsize. destruct handle as [h|]; [|congruence].
    unfold rocsparse_nnz_impl.
    rewrite (valid_direction_test dir Hdir), (bad_size_test m n ld Hsize). reflexivity.
  - intros Hh Hdir Hm Hn Hld Hnull. destruct handle as [h|]; [|congruence].
    unfold rocsparse_nnz_impl.
    rewrite (valid_direction_test dir Hdir), (size_test m n ld) by lia.
    rewrite (nonzero_test m n Hm Hn).
    assert (E : is_null descr || is_null counts || is_null A || is_null total = true).
    { destruct Hnull as [-> | [-> | [-> | ->]]]; cbn [is_null];
        rewrite ?orb_true_r; reflexivity. }
    rewrite E. reflexivity.
  - intros d Hh Hdir Hm Hn Hld -> Hc HA Ht Htype. destruct handle as [h|]; [|congruence].
    destruct counts as [c|]; [|congruence]. destruct A as [a|]; [|congruence].
    destruct total as [t|]; [|congruence].
    unfold rocsparse_nnz_impl.
    rewrite (valid_direction_test dir Hdir), (size_test m n ld) by lia.
    rewrite (nonzero_test m n Hm Hn).
    assert (E : is_general (type d) = false) by (destruct (type d); [congruence | reflexivity ..]).
    mred. rewrite E. reflexivity.
Qed.

(** X4.  The checks of [rocsparse_csx2dense_impl], in the order of the
    code, each returning with the state untouched and nothing launched:
    a null handle is [invalid_handle], even when the descriptor is null
    too; with a handle and a descriptor, a negative size or [lda < m]
    is [invalid_size]; then [m = 0] or [n = 0] is success whatever the
    other pointers are; then a null matrix, pointer, index or value
    array is [invalid_pointer]; then a matrix type other than general
    is [not_implemented], before anything is zeroed. *)
Theorem csx2dense_checks_in_order (DIRA : rocsparse_direction) (handle : rocsparse_handle)
    (m n : Z) (descr : rocsparse_mat_descr) (csx_val csx_row_col_ptr csx_col_row_ind A : pointer)
    (lda : Z) (w : world T) :
  let result := call (rocsparse_csx2dense_impl DIRA handle m n descr csx_val csx_row_col_ptr
                                               csx_col_row_ind A lda) w in
  (handle = None -> result = Some (rocsparse_status_invalid_handle, w))
  /\ (handle <> None -> descr <> None -> m < 0 \/ n < 0 \/ lda < m ->
      result = Some (rocsparse_status_invalid_size, w))
  /\ (handle <> None -> descr <> None -> 0 <= m -> 0 <= n -> m <= lda -> m = 0 \/ n = 0 ->
      result = Some (rocsparse_status_success, w))
  /\ (handle <> None -> descr <> None -> 0 < m -> 0 < n -> m <= lda ->
      A = None \/ csx_row_col_ptr = None \/ csx_col_row_ind = None \/ csx_val = None ->
      result = Some (rocsparse_status_invalid_pointer, w))
  /\ (forall d, handle <> None -> descr = Some d -> 0 < m -> 0 < n -> m <= lda ->
      A <> None -> csx_row_col_ptr <> None -> csx_col_row_ind <> None -> csx_val <> None ->
      type d <> rocsparse_matrix_type_general ->
      result = Some (rocsparse_status_not_implemented, w)).
Proof.
  cbv zeta. repeat split.
  - intros ->. reflexivity.
  - intros Hh Hd Hsize. destruct handle as [h|]; [|congruence].
    destruct descr as [d|]; [|congruence]. unfold rocsparse_csx2dense_impl.
    rewrite (bad_size_test m n lda Hsize). reflexivity.
  - intros Hh Hd Hm Hn Hld Hz. destruct handle as [h|]; [|congruence].
    destruct descr as [d|]; [|congruence]. unfold rocsparse_csx2dense_impl.
    rewrite (size_test m n lda Hm Hn Hld), (zero_test m n Hz). reflexivity.
  - intros Hh Hd Hm Hn Hld Hnull. destruct handle as [h|]; [|congruence].
    destruct descr as [d|]; [|congruence]. unfold rocsparse_csx2dense_impl.
    rewrite (size_test m n lda) by lia. rewrite (nonzero_test m n Hm Hn).
    assert (E : is_null (Some d) || is_null A || is_null csx_row_col_ptr
                || is_null csx_col_row_ind || is_null csx_val = true).
    { destruct Hnull as [-> | [-> | [-> | ->]]]; cbn [is_null orb];
        rewrite ?orb_true_r; reflexivity. }
    rewrite E. reflexivity.
  - intros d Hh -> Hm Hn Hld HA Hp Hi Hv Htype. destruct handle as [h|]; [|congruence].
    destruct A as [a|]; [|congruence]. destruct csx_row_col_ptr as [p|]; [|congruence].
    destruct csx_col_row_ind as [i|]; [|congruence]. destruct csx_val as [v|]; [|congruence].
    unfold rocsparse_csx2dense_impl.
    rewrite (size_test m n lda) by lia. rewrite (nonzero_test m n Hm Hn).
    assert (E : is_general (type d) = false) by (destruct (type d); [congruence | reflexivity ..]).
    mred. rewrite E. reflexivity.
Qed.

End Checks.

(** ** Launches of the compressed-to-dense conversion *)

Section Csx2denseLaunch.
Context {T : Type} `{Scalar T} `{Runtime}.

(** 16 rows or columns to a block: (count - 1) / 16 + 1 blocks are the
    fewest that reach every one of them. *)
Lemma blocks_cover (count : Z) :
  0 < count <= INT_MAX ->
  let blocks := to_int (Z.quot (to_int (count - 1)) 16 + 1) in
  16 * (blocks - 1) < count <= 16 * blocks.
Proof.
  intros Hc blocks. subst blocks. unfold INT_MAX in Hc.
  rewrite (to_int_small (count - 1)) by (unfold INT_MIN, INT_MAX; lia).
  rewrite Z.quot_div_nonneg by lia.
  pose proof (Z.div_mod (count - 1) 16 ltac:(lia)) as E.
  pose proof (Z.mod_pos_bound (count - 1) 16 ltac:(lia)) as B.
  rewrite to_int_small by (unfold INT_MIN, INT_MAX; lia). lia.
Qed.

(** X5.  A conversion that passes the checks returns success whatever
    the runtime has in store, since no runtime status is looked at; it
    appends exactly one launch, of the kernel of its direction with the
    arguments as passed, 1024 threads to a block and the fewest blocks
    of 16 rows (direction row) or 16 columns (direction column) that
    reach all of them; it allocates nothing and writes neither integer
    nor host memory. *)
Theorem csx2dense_launch_geometry (DIRA : rocsparse_direction) (h : _rocsparse_handle)
    (d : _rocsparse_mat_descr) (m n val ptr ind A lda : Z) (w : world T) :
  DIRA = rocsparse_direction_row \/ DIRA = rocsparse_direction_column ->
  type d = rocsparse_matrix_type_general ->
  0 < m <= INT_MAX -> 0 < n <= INT_MAX -> m <= lda ->
  let count := if DIRA =? rocsparse_direction_row then m else n in
  let kern :=
    if DIRA =? rocsparse_direction_row
    then csr2dense_kernel 16 64 (base d) m n val ptr ind A lda
    else csc2dense_kernel 16 64 (base d) m n val ptr ind A lda in
  exists w' blocks,
    call (rocsparse_csx2dense_impl DIRA (Some h) m n (Some d) (Some val) (Some ptr) (Some ind)
                                   (Some A) lda) w
    = Some (rocsparse_status_success, w')
    /\ launched w' = launched w ++ [mk_launch kern blocks 1024]
    /\ 16 * (blocks - 1) < count <= 16 * blocks
    /\ hip_results w' = hip_results w
    /\ hip_brk w' = hip_brk w
    /\ dev_int w' = dev_int w
    /\ host_int w' = host_int w.
Proof.
  intros Hdir Htype Hm Hn Hld count kern.
  assert (Hsz : (m <? 0) || (n <? 0) || (lda <? m) = false) by (apply size_test; lia).
  assert (Hz : (m =? 0) || (n =? 0) = false) by (apply nonzero_test; lia).
  assert (Hz' : (0 =? m) || (0 =? n) = false)
    by (apply orb_false_intro; apply Z.eqb_neq; lia).
  destruct Hdir as [-> | ->];
    [ change (rocsparse_direction_row =? rocsparse_direction_row) with true in *
    | change (rocsparse_direction_column =? rocsparse_direction_row) with false in * ];
    cbv iota in *; subst count kern.
  - eexists. exists (to_int (Z.quot (to_int (m - 1)) 16 + 1)). split.
    { unfold rocsparse_csx2dense_impl, rocsparse_csx2dense_template.
      rewrite Hsz, Hz, Hz'. mred. rewrite Htype. reflexivity. }
    split; [reflexivity|]. split; [apply blocks_cover; exact Hm|].
    repeat split.
  - eexists. exists (to_int (Z.quot (to_int (n - 1)) 16 + 1)). split.
    { unfold rocsparse_csx2dense_impl, rocsparse_csx2dense_template.
      rewrite Hsz, Hz, Hz'. mred. rewrite Htype. reflexivity. }
    split; [reflexivity|]. split; [apply blocks_cover; exact Hn|].
    repeat split.
Qed.


End Csx2denseLaunch.

Lemma csx2dense_launch_geometry_witness :
  exists w' blocks,
    call (rocsparse_csx2dense_impl rocsparse_direction_row (Some host_handle) 2 2
            (Some general_descr) (Some 10) (Some 20) (Some 30) (Some 40) 2)
         (identity_world [hipErrorUnknown])
    = Some (rocsparse_status_success, w')
    /\ launched w'
       = launched (identity_world [hipErrorUnknown])
         ++ [mk_launch (csr2dense_kernel 16 64 (base general_descr) 2 2 10 20 30 40 2)
                       blocks 1024]
    /\ 16 * (blocks - 1) < 2 <= 16 * blocks
    /\ hip_results w' = hip_results (identity_world [hipErrorUnknown])
    /\ hip_brk w' = hip_brk (identity_world [hipErrorUnknown])
    /\ dev_int w' = dev_int (identity_world [hipErrorUnknown])
    /\ host_int w' = host_int (identity_world [hipErrorUnknown]).
Proof.
  apply (csx2dense_launch_geometry rocsparse_direction_row host_handle general_descr
           2 2 10 20 30 40 2 (identity_world [hipErrorUnknown])).
  - left. reflexivity.
  - reflexivity.
  - unfold INT_MAX. lia.
  - unfold INT_MAX. lia.
  - lia.
Defined.


(** ** Launch, scratch memory and host memory of [nnz_compress] *)

Section NnzCompressRun.
Context {T : Type} `{Scalar T} `{Runtime}.

(** For each segment size of the dispatch the blocks are filled, and
    the grid is the smallest that gives every row a segment. *)
Lemma segments_cover (seg m : Z) :
  In seg [2; 4; 8; 16; 32; 64] -> 0 < m <= INT_MAX - 512 ->
  let segments_per_block := Z.quot 1024 seg in
  let grid_size := Z.quot (to_int (to_int (m + segments_per_block) - 1)) segments_per_block in
  segments_per_block * seg = 1024
  /\ segments_per_block * (grid_size - 1) < m <= segments_per_block * grid_size.
Proof.
  unfold INT_MAX. intros Hseg Hm.
  assert (Hcase : forall spb, 0 < spb <= 512 ->
            let grid := Z.quot (to_int (to_int (m + spb) - 1)) spb in
            spb * (grid - 1) < m <= spb * grid).
  { intros spb Hspb grid. subst grid.
    rewrite (to_int_small (m + spb)) by (unfold INT_MIN, INT_MAX; lia).
    rewrite to_int_small by (unfold INT_MIN, INT_MAX; lia).
    rewrite Z.quot_div_nonneg by lia.
    pose proof (Z.div_mod (m + spb - 1) spb ltac:(lia)) as E.
    pose proof (Z.mod_pos_bound (m + spb - 1) spb ltac:(lia)) as B.
    lia. }
  cbn [In] in Hseg.
  destruct Hseg as [<- | [<- | [<- | [<- | [<- | [<- | []]]]]]]; cbv zeta;
    (split; [reflexivity | apply Hcase; vm_compute; split; [reflexivity | discriminate]]).
Qed.

(** X7.  For a call that passes the checks with [m > 0] small enough
    that [m + 512] is still a [rocsparse_int], on a wavefront of 32 or
    64 and with the row-pointer copy succeeding: the one kernel launched
    has blocks of 1024 threads that its segments fill exactly, and a
    grid that is the smallest giving every one of the [m] rows a
    segment of its own. *)
Theorem nnz_compress_launch_covers_rows (h : _rocsparse_handle) (d : _rocsparse_mat_descr)
    (m : Z) (val rp out nc : Z) (tol : T) (w : world T) :
  0 < m <= INT_MAX - 512 -> real_lt (std_real tol) (std_real scalar_zero) = false ->
  next_result w = hipSuccess ->
  wavefront_size h = 32 \/ wavefront_size h = 64 ->
  exists s w' seg grid_size,
    call (rocsparse_nnz_compress_template (Some h) m (Some d) (Some val) (Some rp) (Some out)
                                          (Some nc) tol) w = Some (s, w')
    /\ launched w'
       = launched w
         ++ [mk_launch (nnz_compress_kernel 1024 (Z.quot 1024 seg) seg (wavefront_size h)
                                            m (base d) val rp out tol)
                       grid_size 1024]
    /\ Z.quot 1024 seg * seg = 1024
    /\ Z.quot 1024 seg * (grid_size - 1) < m <= Z.quot 1024 seg * grid_size.
Proof.
  intros Hm Htol Hnext Hwf.
  set (P := fun (w' : world T) =>
              exists seg grid_size,
                launched w'
                = launched w
                  ++ [mk_launch (nnz_compress_kernel 1024 (Z.quot 1024 seg) seg (wavefront_size h)
                                                     m (base d) val rp out tol)
                                grid_size 1024]
                /\ Z.quot 1024 seg * seg = 1024
                /\ Z.quot 1024 seg * (grid_size - 1) < m <= Z.quot 1024 seg * grid_size).
  assert (Hpost : post (rocsparse_nnz_compress_template (Some h) m (Some d) (Some val) (Some rp)
                                                        (Some out) (Some nc) tol) w
                       (fun _ w' => P w') (fun _ w' => P w')).
  { unfold rocsparse_nnz_compress_template.
    assert (Hlt : (m <? 0) = false) by (apply Z.ltb_ge; lia).
    assert (Hz : (m =? 0) = false) by (apply Z.eqb_neq; lia).
    rewrite Hlt, Htol, Hz.
    cbv beta iota zeta delta [is_null addr].
    repeat wp_line.
    wp_step; [| congruence].
    apply post_bind_mid with (Mid := fun _ w' => P w').
    - repeat wp_step; world_simpl;
        try (match goal with
             | E1 : (wavefront_size h =? 32) = false, E2 : (wavefront_size h =? 64) = false |- _ =>
                 apply Z.eqb_neq in E1, E2; exfalso; lia
             end);
        unfold P; cbn [launched add_launch run_kernel set_dev_int consume set_hip_results];
        repeat match goal with
               | E : (wavefront_size h =? _) = true |- _ => apply Z.eqb_eq in E; rewrite E
               end;
        match goal with
        | |- exists seg grid, _ ++ [mk_launch (nnz_compress_kernel _ _ ?s _ _ _ _ _ _ _) ?g _]
                              = _ /\ _ =>
            exists s, g; split; [reflexivity|];
            apply (segments_cover s m); [cbn [In]; tauto | exact Hm]
        end.
    - cbv beta. intros _ w1 Hw1.
      repeat wp_step; world_simpl; split_matches; world_simpl; exact Hw1. }
  destruct (post_call _ w _ Hpost) as [s [w' [Hcall [seg [grid HP]]]]].
  exists s, w', seg, grid. split; [exact Hcall | exact HP].
Qed.


(** X8.  A successful [nnz_compress] on [m > 0] rows takes from the
    device allocator exactly this: in host pointer mode one
    [rocsparse_int] for the total, in device pointer mode nothing for it
    since the reduction writes through the pointer passed; and the
    temporary storage of the reduction only when the buffer of the
    handle is too small for it.  A call counts as successful only if the
    runtime does not report failures as successes. *)
Theorem nnz_compress_allocation (h : _rocsparse_handle) (d : _rocsparse_mat_descr) (m : Z)
    (val rp out nc : Z) (tol : T) (w w' : world T) :
  (forall e, e <> hipSuccess ->
             get_rocsparse_status_for_hip_status e <> rocsparse_status_success) ->
  0 < m ->
  call (rocsparse_nnz_compress_template (Some h) m (Some d) (Some val) (Some rp) (Some out)
                                        (Some nc) tol) w
  = Some (rocsparse_status_success, w') ->
  hip_brk w'
  = hip_brk w
    + (if is_device (pointer_mode h) then 0 else sizeof_rocsparse_int)
    + (if buffer_size h >=? rocprim_reduce_temp_storage m then 0
       else rocprim_reduce_temp_storage m).
Proof.
  intros Htable Hm Hcall.
  refine (post_call_inv _ w
            (fun s w' =>
               s = rocsparse_status_success ->
               hip_brk w'
               = hip_brk w
                 + (if is_device (pointer_mode h) then 0 else sizeof_rocsparse_int)
                 + (if buffer_size h >=? rocprim_reduce_temp_storage m then 0
                    else rocprim_reduce_temp_storage m))
            rocsparse_status_success w' _ Hcall eq_refl).
  unfold rocsparse_nnz_compress_template.
  assert (Hlt : (m <? 0) = false) by (apply Z.ltb_ge; lia).
  assert (Hz : (m =? 0) = false) by (apply Z.eqb_neq; lia).
  rewrite Hlt, Hz.
  cbv beta iota zeta delta [is_null addr nullptr].
  repeat wp_line.
  wp_step; [discriminate|].
  repeat wp_line.
  wp_step; [| intros E; apply Htable in E; [contradiction | assumption]].
  apply post_bind_mid with (Mid := fun _ w1 => hip_brk w1 = hip_brk w).
  - repeat wp_step; world_simpl; try discriminate; reflexivity.
  - cbv beta. intros _ w1 Hw1.
    repeat wp_step;
      try discriminate;
      try (intros E; apply Htable in E; [contradiction | assumption]);
      world_simpl; split_matches; world_simpl;
      try (match goal with
           | E1 : is_device _ = _, E2 : negb (is_device _) = _ |- _ =>
               rewrite E1 in E2; discriminate E2
           end);
      intros _;
      repeat match goal with E : _ = _ :> bool |- _ => rewrite E; clear E end;
      rewrite ?Hw1; cbn [negb]; lia.
Qed.

(** X9.  Host memory under [nnz_compress], whatever the arguments and
    however the call ends: the only host cell it can change is the one
    the total pointer names, and only in host pointer mode; in device
    pointer mode, or with a null handle, host memory is left as it
    was. *)
Theorem nnz_compress_host_memory (handle : rocsparse_handle) (m : Z)
    (descr_A : rocsparse_mat_descr) (csr_val_A csr_row_ptr_A nnz_per_row nnz_C : pointer)
    (tol : T) (w w' : world T) (s : rocsparse_status) (a : Z) :
  call (rocsparse_nnz_compress_template handle m descr_A csr_val_A csr_row_ptr_A
                                        nnz_per_row nnz_C tol) w = Some (s, w') ->
  (forall h, handle = Some h -> pointer_mode h = rocsparse_pointer_mode_host ->
             nnz_C <> Some a) ->
  host_int w' a = host_int w a.
Proof.
  intros Hcall Hcell.
  destruct handle as [h|]; [| injection Hcall as _ <-; reflexivity].
  destruct descr_A as [d|]; [| injection Hcall as _ <-; reflexivity].
  assert (Hmode : is_device (pointer_mode h) = false -> forall p, nnz_C = Some p -> p <> a).
  { intros Hdev p -> ->. apply (Hcell h eq_refl); [|reflexivity].
    destruct (pointer_mode h); [reflexivity | discriminate Hdev]. }
  clear Hcell.
  refine (post_call_inv _ w (fun _ w' => host_int w' a = host_int w a) s w' _ Hcall).
  unfold rocsparse_nnz_compress_template.
  cbv beta iota zeta delta [is_null].
  repeat wp_line.
  wp_step; [wp_line; reflexivity|].
  repeat wp_line.
  wp_step; [wp_line; reflexivity|].
  repeat wp_line.
  wp_step.
  { destruct nnz_C as [p|]; cbn [negb addr];
      repeat wp_step; world_simpl; try reflexivity.
    apply upd_neq. intros E. symmetry in E. revert E. apply Hmode; [assumption | reflexivity]. }
  apply post_bind_mid with (Mid := fun _ w1 => host_int w1 = host_int w /\ nnz_C <> None).
  { destruct csr_val_A, csr_row_ptr_A, nnz_per_row, nnz_C;
      repeat wp_step; try reflexivity; split; [reflexivity | discriminate]. }
  cbv beta. intros _ w1 [Hw1 Hnc].
  destruct nnz_C as [nc|]; [|congruence]. cbn [addr].
  repeat wp_line.
  wp_step; [| world_simpl; rewrite Hw1; reflexivity].
  apply post_bind_mid with (Mid := fun _ w2 => host_int w2 = host_int w).
  - repeat wp_step; world_simpl; try (rewrite Hw1; reflexivity).
  - cbv beta. intros _ w2 Hw2.
    repeat wp_step; world_simpl; split_matches; world_simpl;
      rewrite ?copy_one; try (rewrite Hw2; reflexivity).
    all: rewrite upd_neq; [rewrite Hw2; reflexivity|].
    all: intros E; symmetry in E; revert E; apply Hmode; [|reflexivity].
    all: match goal with E : negb (is_device _) = true |- _ =>
           apply negb_true_iff in E; exact E end.
Qed.

End NnzCompressRun.

(** ** Scratch memory and host memory of the dense count *)

Section NnzRun.
Context {T : Type} `{Scalar T} `{Runtime}.

(** The counting pass works on device memory alone. *)
Lemma nnz_template_frame (handle : rocsparse_handle) (dir : rocsparse_direction)
    (m n A ld out : Z) (w : world T) (R : rocsparse_status -> world T -> Prop) :
  post (invoke (rocsparse_nnz_template handle dir m n A ld out)) w
       (fun _ w1 => host_int w1 = host_int w /\ hip_brk w1 = hip_brk w) R.
Proof.
  unfold post, invoke, rocsparse_nnz_template.
  destruct ((0 =? m) || (0 =? n)); [split; reflexivity|].
  destruct ((dir =? rocsparse_direction_row) || (dir =? rocsparse_direction_column));
    split; reflexivity.
Qed.

(** X10.  A successful dense count on a matrix with [m > 0] and
    [n > 0] works in the buffer of the handle when that holds the
    temporary storage of the reduction and one [rocsparse_int] more,
    and takes nothing from the device allocator; otherwise it allocates
    exactly that much.  The counting pass itself allocates nothing.  A
    call counts as successful only if the runtime does not report
    failures as successes. *)
Theorem nnz_allocation (h : _rocsparse_handle) (dir : rocsparse_direction) (m n : Z)
    (descr : rocsparse_mat_descr) (A : pointer) (ld : Z) (counts total : pointer)
    (w w' : world T) :
  (forall e, e <> hipSuccess ->
             get_rocsparse_status_for_hip_status e <> rocsparse_status_success) ->
  0 < m -> 0 < n ->
  call (rocsparse_nnz_impl (Some h) dir m n descr A ld counts total) w
  = Some (rocsparse_status_success, w') ->
  let needed :=
    rocprim_reduce_temp_storage (if dir =? rocsparse_direction_row then m else n)
    + sizeof_rocsparse_int in
  hip_brk w' = hip_brk w + (if buffer_size h >=? needed then 0 else needed).
Proof.
  intros Htable Hm Hn Hcall needed.
  refine (post_call_inv _ w
            (fun s w' =>
               s = rocsparse_status_success ->
               hip_brk w' = hip_brk w + (if buffer_size h >=? needed then 0 else needed))
            rocsparse_status_success w' _ Hcall eq_refl).
  unfold rocsparse_nnz_impl, nullptr.
  replace ((m =? 0) || (n =? 0)) with false
    by (symmetry; apply orb_false_intro; apply Z.eqb_neq; lia).
  destruct descr as [d|], A as [a|], counts as [o|], total as [tp|];
    cbn [is_null orb negb addr] in *; repeat wp_step; try discriminate.
  eapply post_weaken; [apply nnz_template_frame | | intros s0 w0 Hs; exact Hs].
  cbv beta. intros status w1 [_ Hw1]. subst needed.
  repeat wp_step;
    try discriminate;
    try (intros E; apply Htable in E; [contradiction | assumption]);
    try (intros ->;
         match goal with E : negb (status_eqb _ _) = true |- _ => discriminate E end);
    intros _;
    repeat match goal with E : _ = _ :> bool |- _ => rewrite E; clear E end;
    world_simpl; split_matches; world_simpl;
    rewrite ?Hw1; lia.
Qed.

(** X11.  Host memory under the dense count, whatever the arguments
    and however the call ends: the only host cell it can change is the
    one the total pointer names, and only in host pointer mode; in
    device pointer mode, or with a null handle, host memory is left as
    it was. *)
Theorem nnz_host_memory (handle : rocsparse_handle) (dir : rocsparse_direction) (m n : Z)
    (descr : rocsparse_mat_descr) (A : pointer) (ld : Z) (counts total : pointer)
    (w w' : world T) (s : rocsparse_status) (a : Z) :
  call (rocsparse_nnz_impl handle dir m n descr A ld counts total) w = Some (s, w') ->
  (forall h, handle = Some h -> pointer_mode h = rocsparse_pointer_mode_host ->
             total <> Some a) ->
  host_int w' a = host_int w a.
Proof.
  intros Hcall Hcell.
  destruct handle as [h|]; [| injection Hcall as _ <-; reflexivity].
  assert (Hmode : is_device (pointer_mode h) = false -> forall p, total = Some p -> p <> a).
  { intros Hdev p -> ->. apply (Hcell h eq_refl); [|reflexivity].
    destruct (pointer_mode h); [reflexivity | discriminate Hdev]. }
  clear Hcell.
  refine (post_call_inv _ w (fun _ w' => host_int w' a = host_int w a) s w' _ Hcall).
  unfold rocsparse_nnz_impl, nullptr.
  cbv beta iota zeta delta [is_null rocsparse_get_pointer_mode status_eqb].
  repeat wp_line.
  wp_step; [wp_line; reflexivity|].
  repeat wp_line.
  wp_step; [wp_line; reflexivity|].
  repeat wp_line.
  wp_step.
  { destruct total as [p|]; cbn [negb addr];
      repeat wp_step; world_simpl; try reflexivity; try discriminate.
    apply upd_neq. intros E. symmetry in E. revert E. apply Hmode; [assumption | reflexivity]. }
  repeat wp_line.
  destruct descr as [d|], A as [av|], counts as [o|], total as [tp|];
    cbn [orb]; repeat wp_line; try reflexivity.
  cbn [addr].
  wp_step; [wp_line; reflexivity|].
  repeat wp_line.
  eapply post_weaken; [apply nnz_template_frame | | intros s0 w0 Hs; exact Hs].
  cbv beta. intros status w1 [Hw1 _].
  repeat wp_step; world_simpl; split_matches; world_simpl;
    rewrite ?copy_one; try (rewrite Hw1; reflexivity).
  all: rewrite upd_neq; [rewrite Hw1; reflexivity|].
  all: intros E; symmetry in E; revert E; apply Hmode; [assumption | reflexivity].
Qed.

End NnzRun.

(** ** Which calls are defined, and what they can answer *)

Section Defined.
Context {T : Type} `{Scalar T} `{Runtime}.



(** X13.  The compressed-to-dense conversion is undefined for exactly
    one kind of call, a handle together with a null descriptor; every
    other call returns success or one of five argument errors, and
    never the translation of a runtime failure, for it inspects no
    status of the runtime and uses up none of its answers. *)
Theorem csx2dense_defined_unless_null_descr (DIRA : rocsparse_direction)
    (handle : rocsparse_handle) (m n : Z) (descr : rocsparse_mat_descr)
    (csx_val csx_row_col_ptr csx_col_row_ind A : pointer) (lda : Z) (w : world T) :
  let result := call (rocsparse_csx2dense_impl DIRA handle m n descr csx_val csx_row_col_ptr
                                               csx_col_row_ind A lda) w in
  (result = None <-> handle <> None /\ descr = None)
  /\ (forall s w', result = Some (s, w') ->
        In s [rocsparse_status_success; rocsparse_status_invalid_handle;
              rocsparse_status_invalid_size; rocsparse_status_invalid_pointer;
              rocsparse_status_not_implemented; rocsparse_status_invalid_value]
        /\ hip_results w' = hip_results w).
Proof.
  cbv zeta.
  destruct handle as [h|].
  2:{ split.
      - split; [discriminate | intros [E _]; congruence].
      - intros s w' E. injection E as <- <-. split; [cbn; tauto | reflexivity]. }
  destruct descr as [d|].
  2:{ split.
      - split; [intros _; split; [discriminate | reflexivity] | reflexivity].
      - intros s w' E. discriminate E. }
  set (P := fun (s : rocsparse_status) (w' : world T) =>
              In s [rocsparse_status_success; rocsparse_status_invalid_handle;
                    rocsparse_status_invalid_size; rocsparse_status_invalid_pointer;
                    rocsparse_status_not_implemented; rocsparse_status_invalid_value]
              /\ hip_results w' = hip_results w).
  assert (Hpost : post (rocsparse_csx2dense_impl DIRA (Some h) m n (Some d) csx_val
                          csx_row_col_ptr csx_col_row_ind A lda) w P P).
  { unfold rocsparse_csx2dense_impl, rocsparse_csx2dense_template.
    repeat wp_step; unfold P; (split; [cbn; tauto | reflexivity]). }
  split.
  - destruct (post_call _ w _ Hpost) as [s [w' [E _]]]. rewrite E.
    split; [discriminate | intros [_ E']; discriminate E'].
  - intros s w' E. exact (post_call_inv _ w P s w' Hpost E).
Qed.

End Defined.

(** ** The further properties on concrete data *)

Lemma nnz_compress_launch_covers_rows_witness :
  exists s w' seg grid_size,
    call (rocsparse_nnz_compress_template (Some host_handle) 1 (Some general_descr)
            (Some 10) (Some 20) (Some 40) (Some 50) 0) (row5_world [])
    = Some (s, w')
    /\ launched w'
       = launched (row5_world [])
         ++ [mk_launch (nnz_compress_kernel 1024 (Z.quot 1024 seg) seg
                                            (wavefront_size host_handle)
                                            1 (base general_descr) 10 20 40 0)
                       grid_size 1024]
    /\ Z.quot 1024 seg * seg = 1024
    /\ Z.quot 1024 seg * (grid_size - 1) < 1 <= Z.quot 1024 seg * grid_size.
Proof.
  apply (nnz_compress_launch_covers_rows host_handle general_descr 1 10 20 40 50 0
           (row5_world [])).
  - unfold INT_MAX. lia.
  - reflexivity.
  - reflexivity.
  - right. reflexivity.
Defined.

Lemma nnz_compress_allocation_witness :
  exists w',
    call (rocsparse_nnz_compress_template (Some small_buffer_handle) 1 (Some general_descr)
            (Some 10) (Some 20) (Some 40) (Some 50) 0) (row5_world [])
    = Some (rocsparse_status_success, w')
    /\ hip_brk w' = 1000 + 4 + 256.
Proof.
  eexists. split; [vm_compute; reflexivity|].
  match goal with
  | |- hip_brk ?W = _ =>
      etransitivity;
      [ apply (nnz_compress_allocation small_buffer_handle general_descr 1 10 20 40 50 0
                 (row5_world []) W);
        [exact library_failures_are_reported | lia | vm_compute; reflexivity]
      | vm_compute; reflexivity ]
  end.
Defined.

Lemma nnz_compress_host_memory_witness :
  exists s w',
    call (rocsparse_nnz_compress_template (Some host_handle) 1 (Some general_descr)
            (Some 10) (Some 20) (Some 40) (Some 50) 0) (row5_world [])
    = Some (s, w')
    /\ host_int w' 51 = host_int (row5_world []) 51.
Proof.
  do 2 eexists. split; [vm_compute; reflexivity|].
  match goal with
  | |- host_int ?W _ = _ =>
      apply (nnz_compress_host_memory (Some host_handle) 1 (Some general_descr)
               (Some 10) (Some 20) (Some 40) (Some 50) 0 (row5_world []) W
               rocsparse_status_success 51);
      [vm_compute; reflexivity | intros h _ _ E; discriminate E]
  end.
Defined.

Lemma nnz_allocation_witness :
  exists w',
    call (rocsparse_nnz_impl (Some small_buffer_handle) rocsparse_direction_row 2 2
            (Some general_descr) (Some 10) 2 (Some 40) (Some 50)) (dense_world [])
    = Some (rocsparse_status_success, w')
    /\ hip_brk w' = 1000 + 260.
Proof.
  eexists. split; [vm_compute; reflexivity|].
  match goal with
  | |- hip_brk ?W = _ =>
      etransitivity;
      [ apply (nnz_allocation small_buffer_handle rocsparse_direction_row 2 2
                 (Some general_descr) (Some 10) 2 (Some 40) (Some 50) (dense_world []) W);
        [exact library_failures_are_reported | lia | lia | vm_compute; reflexivity]
      | vm_compute; reflexivity ]
  end.
Defined.

Lemma nnz_host_memory_witness :
  exists s w',
    call (rocsparse_nnz_impl (Some device_handle) rocsparse_direction_row 2 2
            (Some general_descr) (Some 10) 2 (Some 40) (Some 50)) (dense_world [])
    = Some (s, w')
    /\ host_int w' 50 = host_int (dense_world []) 50.
Proof.
  do 2 eexists. split; [vm_compute; reflexivity|].
  match goal with
  | |- host_int ?W _ = _ =>
      apply (nnz_host_memory (Some device_handle) rocsparse_direction_row 2 2
               (Some general_descr) (Some 10) 2 (Some 40) (Some 50) (dense_world []) W
               rocsparse_status_success 50);
      [vm_compute; reflexivity | intros h E Hmode; injection E as <-; discriminate Hmode]
  end.
Defined.
